(** * libembeddedhal: integer percent, bit scaling and duty cycles

    A shallow embedding of [include/libembeddedhal/percent.hpp] (namespace
    [embed]) and of the arithmetic its tests exercise.  Machine integers
    are mathematical integers with the conversion between integral types
    written out; arrays of characters are lists updated by index;
    floating-point values are IEEE 754 binary floats as specified by
    [SpecFloat]. *)

From Stdlib Require Import ZArith Lia Bool List Ascii String.
From Stdlib Require Import Floats.SpecFloat.
From stdpp Require Import base list.
Import ListNotations.

#[local] Open Scope Z_scope.

(** ** Integral types *)

(** A C++ integral type is known by its width and its signedness. *)
Record int_type : Type := IntType { bits : Z; is_signed : bool }.

Definition int8_t : int_type := IntType 8 true.
Definition uint8_t : int_type := IntType 8 false.
Definition int16_t : int_type := IntType 16 true.
Definition uint16_t : int_type := IntType 16 false.
Definition int32_t : int_type := IntType 32 true.
Definition uint32_t : int_type := IntType 32 false.
Definition int64_t : int_type := IntType 64 true.
Definition uint64_t : int_type := IntType 64 false.

(** [std::numeric_limits<T>::min()] and [max()]. *)
Definition int_min (T : int_type) : Z :=
  if is_signed T then - 2 ^ (bits T - 1) else 0.

Definition int_max (T : int_type) : Z :=
  if is_signed T then 2 ^ (bits T - 1) - 1 else 2 ^ bits T - 1.

Definition in_range (T : int_type) (v : Z) : Prop :=
  int_min T <= v <= int_max T.

Definition in_rangeb (T : int_type) (v : Z) : bool :=
  (int_min T <=? v) && (v <=? int_max T).

(** [static_cast<T>(v)] between integral types: the value of [T] congruent
    to [v] modulo [2 ^ bits T]. *)
Definition static_cast (T : int_type) (v : Z) : Z :=
  let m := v mod 2 ^ bits T in
  if is_signed T && (2 ^ (bits T - 1) <=? m) then m - 2 ^ bits T else m.

(** Integral promotion: every type narrower than [int] becomes [int]. *)
Definition promote (U : int_type) : int_type :=
  if bits U <? 32 then int32_t else U.

(** [std::clamp(v, lo, hi)]. *)
Definition clamp (v lo hi : Z) : Z :=
  if v <? lo then lo else if hi <? v then hi else v.

(** ** Helpers of [math.hpp] *)

(** Modelled from the spec: [absolute_value] of [math.hpp], which is not
    part of the sources at hand; the specification calls it [abs(maximum)],
    the magnitude of its argument. *)
Definition absolute_value (p_value : Z) : Z := Z.abs p_value.

(** Modelled from the spec: [rounding_division] of [math.hpp], which is not
    part of the sources at hand.  The specification describes it as the
    division whose numerator is first moved by half the divisor, with sign
    awareness, and which then truncates. *)
Definition rounding_division (p_numerator p_denominator : Z) : Z :=
  let half_denominator := Z.quot p_denominator 2 in
  let half_denominator :=
    if Bool.eqb (0 <=? p_numerator) (0 <=? p_denominator)
    then half_denominator else - half_denominator in
  Z.quot (p_numerator + half_denominator) p_denominator.

(** ** The class [percent] *)

Definition int_t : int_type := int32_t.
Definition overflow_t : int_type := int64_t.

Definition raw_max : Z := int_max int_t.
Definition raw_min : Z := int_min int_t + 1.
Definition raw_zero : Z := 0.

(** The only data member is [m_value], an [int_t]. *)
Record percent : Type := Percent { m_value : Z }.

Definition raw_value (p : percent) : Z := m_value p.

(** [percent()] *)
Definition percent_default : percent := Percent 0.

(** [operator<=>(const percent&) const = default]: the three-way comparison
    of the only data member, from which the language derives the relational
    operators, [<=] among them. *)
Definition operator_spaceship (a b : percent) : comparison :=
  m_value a ?= m_value b.

Definition operator_le (a b : percent) : bool :=
  match operator_spaceship a b with Gt => false | _ => true end.

(** [percent::from_ratio<T>(p_progress, p_maximum)], for an integral [T]
    whose values [overflow_t] holds, so that the arithmetic takes place in
    [overflow_t].  A zero [p_maximum] is a division by zero in the source;
    nothing is claimed about it. *)
Definition from_ratio (p_progress p_maximum : Z) : percent :=
  let result := static_cast overflow_t p_progress in
  let result :=
    static_cast overflow_t
      (Z.quot (static_cast overflow_t (result * raw_max))
              (absolute_value p_maximum)) in
  let result := clamp result raw_min raw_max in
  Percent (static_cast int_t result).

(** [operator*(T p_value, percent p_scale)] *)
Definition operator_mul (T : int_type) (p_value : Z) (p_scale : percent) : Z :=
  let arith_container := static_cast overflow_t p_value in
  let arith_container :=
    static_cast overflow_t (arith_container * raw_value p_scale) in
  let arith_container := rounding_division arith_container raw_max in
  static_cast T arith_container.

(** [operator*(percent p_scale, T p_value)] *)
Definition operator_mul_commuted (T : int_type) (p_scale : percent) (p_value : Z) : Z :=
  operator_mul T p_value p_scale.

(** ** Bit scaling: [upscale_integer<T, SourceWidth, U>] *)

(** The two [static_assert]s of [upscale_integer]. *)
Definition upscale_asserts (T : int_type) (SourceWidth : Z) : Prop :=
  SourceWidth <= bits T /\ 2 <= SourceWidth.

(** The loop
    [for (i = final_source_width; i < final_width; i += final_source_width)
       result |= (result >> i);]
    started at [i], with [fuel] bounding the number of iterations. *)
Fixpoint replicate_bits (fuel : nat) (T : int_type)
    (final_source_width final_width i result : Z) : Z :=
  match fuel with
  | O => result
  | S fuel' =>
      if i <? final_width
      then replicate_bits fuel' T final_source_width final_width
             (i + final_source_width)
             (static_cast T (Z.lor result (Z.shiftr result i)))
      else result
  end.

(** [upscale_integer<T, SourceWidth, U>(p_value)].  The shift
    [p_value << width_difference] is evaluated in the promoted type of [U];
    it has no defined value when the amount is negative (as a [size_t], it
    wraps to a huge count) or not below the width of that type, in which
    case the result is [None]. *)
Definition upscale_integer (T : int_type) (SourceWidth : Z) (U : int_type)
    (p_value : Z) : option Z :=
  let output_bit_width := bits T in
  let final_source_width :=
    if is_signed U then SourceWidth - 1 else SourceWidth in
  let final_width :=
    if is_signed T then output_bit_width - 1 else output_bit_width in
  let width_difference := final_width - final_source_width in
  if (0 <=? width_difference) && (width_difference <? bits (promote U)) then
    let result :=
      static_cast T
        (static_cast (promote U) (Z.shiftl p_value width_difference)) in
    if 0 <? p_value
    then Some (replicate_bits (Z.to_nat final_width) T
                 final_source_width final_width final_source_width result)
    else Some result
  else None.

(** [percent::convert<BitWidth, T>(p_value)] *)
Definition convert (BitWidth : Z) (T : int_type) (p_value : Z) : option percent :=
  match upscale_integer int_t BitWidth T p_value with
  | Some up_scaled_value => Some (Percent up_scaled_value)
  | None => None
  end.

(** ** Decimal serialization: [percent::to_string] *)

Definition digit_char (d : Z) : ascii := ascii_of_nat (48 + Z.to_nat d).

(** The digits of a non-negative [value], most significant first, pushed in
    front of [acc]. *)
Fixpoint to_chars_digits (fuel : nat) (value : Z) (acc : list ascii) : list ascii :=
  match fuel with
  | O => acc
  | S fuel' =>
      let acc := digit_char (value mod 10) :: acc in
      if value / 10 =? 0 then acc
      else to_chars_digits fuel' (value / 10) acc
  end.

(** What [std::to_chars(first, last, value)] writes for an integer that fits
    the buffer: the decimal digits, after a minus sign for a negative
    value.  Twenty digits cover every 64-bit integer. *)
Definition to_chars (value : Z) : list ascii :=
  if value <? 0 then "-"%char :: to_chars_digits 20 (- value) []
  else to_chars_digits 20 value [].

(** Modelled from the spec: [to_array<N>] of [to_array.hpp], which is not
    part of the sources at hand; it turns a string literal of [N] visible
    characters into the null-terminated buffer of [N + 1] bytes that
    [to_string] returns. *)
Definition to_array (N : nat) (literal : string) : list ascii :=
  resize (S N) zero (list_ascii_of_string literal).

Definition fixed_percent_scalar : Z := 1000000000.
Definition scalar_length : nat := 12.

(** [for (size_t i = 3; i < leading_zeros; i++) percent_string[i] = '0';]
    started at [i]. *)
Fixpoint fill_leading_zeros (fuel i leading_zeros : nat)
    (percent_string : list ascii) : list ascii :=
  match fuel with
  | O => percent_string
  | S fuel' =>
      if (i <? leading_zeros)%nat
      then fill_leading_zeros fuel' (S i) leading_zeros
             (<[i := "0"%char]> percent_string)
      else percent_string
  end.

(** [std::copy_n(first, count, result)] from position [from] of [src] to
    position [to] of [dst]. *)
Fixpoint copy_n (src : list ascii) (from count : nat)
    (dst : list ascii) (to : nat) : list ascii :=
  match count with
  | O => dst
  | S count' =>
      match src !! from with
      | Some c => copy_n src (S from) count' (<[to := c]> dst) (S to)
      | None => dst
      end
  end.

(** [percent::to_string()].  Both arrays have [scalar_length + 1] bytes;
    every index written below is within them, and [string_length], at most
    11 for an [int_t], never exceeds [scalar_length]. *)
Definition to_string (p : percent) : list ascii :=
  if raw_max - 2 <=? raw_value p then
    to_array scalar_length "+1.000000000"
  else if raw_value p <=? raw_min + 2 then
    to_array scalar_length "-1.000000000"
  else
    let negative := raw_value p <? 0 in
    let absolute_percent :=
      if negative then Percent (static_cast int_t (raw_value p * -1)) else p in
    let buffer : list ascii := replicate (S scalar_length) zero in
    let percent_string : list ascii := replicate (S scalar_length) zero in
    let decimal_percent :=
      operator_mul_commuted int_t absolute_percent fixed_percent_scalar in
    let written := to_chars decimal_percent in
    let buffer := copy_n written 0 (length written) buffer 0%nat in
    let string_length := length written in
    let leading_zeros := (scalar_length - string_length)%nat in
    let percent_string := <[0%nat := if negative then "-"%char else "+"%char]> percent_string in
    let percent_string := <[1%nat := "0"%char]> percent_string in
    let percent_string := <[2%nat := "."%char]> percent_string in
    let percent_string :=
      fill_leading_zeros leading_zeros 3 leading_zeros percent_string in
    copy_n buffer 0 string_length percent_string leading_zeros.

(** The visible text of a buffer: everything before the terminator. *)
Definition visible (buffer : list ascii) : string :=
  string_of_list_ascii (take scalar_length buffer).

(** ** Reference notions used to state the properties *)

(** The integer nearest to [n / d], a tie going away from zero:
    the sign of the quotient times [floor (|n| / |d| + 1/2)]. *)
Definition round_half_away (n d : Z) : Z :=
  Z.sgn n * Z.sgn d * ((2 * Z.abs n + Z.abs d) / (2 * Z.abs d)).

(** The last [k] decimal digits of [n], zeros included. *)
Fixpoint padded_decimal (k : nat) (n : Z) : list ascii :=
  match k with
  | O => []
  | S k' => padded_decimal k' (n / 10) ++ [digit_char (n mod 10)]
  end.

Definition is_digit (c : ascii) : Prop :=
  exists d, 0 <= d <= 9 /\ c = digit_char d.

(** The magnitude of a percent in billionths, by the scalar product. *)
Definition billionths (p : percent) : Z :=
  operator_mul_commuted int_t (Percent (Z.abs (raw_value p))) fixed_percent_scalar.

(** The values of a [SourceWidth]-bit quantity held in the type [U]. *)
Definition source_range (U : int_type) (SourceWidth : Z) (v : Z) : Prop :=
  in_range (IntType SourceWidth (is_signed U)) v.

Definition final_source_width (U : int_type) (SourceWidth : Z) : Z :=
  if is_signed U then SourceWidth - 1 else SourceWidth.

Definition final_width (T : int_type) : Z :=
  if is_signed T then bits T - 1 else bits T.

Definition width_difference (T U : int_type) (SourceWidth : Z) : Z :=
  final_width T - final_source_width U SourceWidth.

(** Bit [j] of the [f]-bit word that repeats the [s] bits of [v] from the
    top downwards: [v]'s bit number [(j - (f - s)) mod s]. *)
Definition replicated_bit (s f v j : Z) : bool :=
  (j <? f) && Z.testbit v ((j - (f - s)) mod s).

(** The number a digit character stands for, and the number a string of
    digits reads as. *)
Definition digit_value (c : ascii) : Z := Z.of_nat (nat_of_ascii c) - 48.

Definition decimal_value (digits : list ascii) : Z :=
  fold_left (fun acc c => 10 * acc + digit_value c) digits 0.

(** ** Floating-point ratios *)

(** A floating-point type is an IEEE 754 binary format: [prec] bits of
    mantissa and exponents below [emax].  Values are [spec_float]s, the
    operations those of [SpecFloat] (round to nearest, ties to even). *)
Section FloatingPoint.
Variables prec emax : Z.

(** Integral to floating conversion, to the nearest value of the
    format. *)
Definition float_of_int (z : Z) : spec_float :=
  binary_normalize prec emax z 0 false.

(** The integral part of a finite value, toward zero. *)
Definition truncate (x : spec_float) : option Z :=
  match x with
  | S754_zero _ => Some 0
  | S754_finite s m e =>
      let magnitude :=
        if 0 <=? e then Zpos m * 2 ^ e else Zpos m / 2 ^ (- e) in
      Some (if s then - magnitude else magnitude)
  | S754_infinity _ | S754_nan => None
  end.

(** Floating to integral conversion, [static_cast<T>(x)]: the value is
    truncated; the conversion has no defined result when the truncated
    value is not a value of [T]. *)
Definition float_to_int (T : int_type) (x : spec_float) : option Z :=
  match truncate x with
  | Some t => if in_rangeb T t then Some t else None
  | None => None
  end.

(** [std::clamp(v, lo, hi)] on floating-point values. *)
Definition float_clamp (v lo hi : spec_float) : spec_float :=
  if SFltb v lo then lo else if SFltb hi v then hi else v.

(** [percent& operator=(std::floating_point auto p_ratio)] applied to a
    ratio of this format; [None] when the conversion to [int_t] is
    undefined. *)
Definition operator_assign (p_ratio : spec_float) : option percent :=
  let max := float_of_int 1 in
  let min := SFopp max in
  let p_ratio := float_clamp p_ratio min max in
  match float_to_int int_t (SFmul prec emax p_ratio (float_of_int raw_max)) with
  | Some m_value => Some (Percent m_value)
  | None => None
  end.

(** [percent(std::floating_point auto p_ratio)] *)
Definition percent_of_float (p_ratio : spec_float) : option percent :=
  operator_assign p_ratio.

(** [percent::to<T>()] for the floating-point type of this format. *)
Definition to_float (p : percent) : spec_float :=
  let maximum := float_of_int raw_max in
  SFdiv prec emax (float_of_int (raw_value p)) maximum.
End FloatingPoint.

(** [float] and [double]. *)
Definition float_prec : Z := 24.
Definition float_emax : Z := 128.
Definition double_prec : Z := 53.
Definition double_emax : Z := 1024.

Definition is_nan (x : spec_float) : bool :=
  match x with S754_nan => true | _ => false end.

(** [2147483647] is no [float]: its neighbours are [2 ^ 31], the nearest
    one, which [float_of_int] gives, and this one below it, the other value
    the conversion is allowed to choose. *)
Definition float_below_raw_max : spec_float := S754_finite false 16777215 7.

(** The floats [1.0f] and [static_cast<float>(raw_max())], which is
    [2 ^ 31]. *)
Definition float_one : spec_float := S754_finite false 8388608 (-23).
Definition float_raw_max : spec_float := S754_finite false 8388608 8.

(** The integral part, toward zero, of a floating-point value times
    [2 ^ k]. *)
Definition scaled_integral_part (x : spec_float) (k : Z) : option Z :=
  match x with
  | S754_finite s m e => truncate (S754_finite s m (e + k))
  | _ => truncate x
  end.

(** Whether a floating-point value lies within [-1, 1]: a zero, or a
    finite [m * 2 ^ e] with [m <= 2 ^ (- e)]. *)
Definition within_unit (x : spec_float) : bool :=
  match x with
  | S754_zero _ => true
  | S754_finite _ m e => (e <=? 0) && (Zpos m <=? 2 ^ (- e))
  | S754_infinity _ | S754_nan => false
  end.

(** The doubles [1.0] and [2147483647.0]. *)
Definition double_one : spec_float := S754_finite false 4503599627370496 (-52).
Definition double_raw_max : spec_float := S754_finite false 9007199250546688 (-22).

(** A decimal literal [n / 10 ^ k] of type [double]: the compiler rounds
    it correctly, as does the division of two exactly represented
    integers. *)
Definition double_literal (numerator denominator : Z) : spec_float :=
  SFdiv double_prec double_emax
    (float_of_int double_prec double_emax numerator)
    (float_of_int double_prec double_emax denominator).

(** ** Frequencies and duty cycles

    [frequency.hpp] is not among the sources at hand; only its test suite
    [tests/frequency.test.cpp] is.  Its operations are modelled from the
    specification and set against the expectations of that suite. *)

Record frequency : Type := Frequency { cycles_per_second : Z }.

(** The literals [_Hz], [_kHz] and [_MHz]. *)
Definition Hz (n : Z) : frequency := Frequency n.
Definition kHz (n : Z) : frequency := Frequency (n * 1000).
Definition MHz (n : Z) : frequency := Frequency (n * 1000000).

(** [std::chrono::duration<Rep, std::ratio<Num, Den>>]: a count of ticks of
    [Num / Den] seconds. *)
Record duration : Type :=
  Duration { ticks : Z; period_num : Z; period_den : Z }.

Definition nanoseconds (n : Z) : duration := Duration n 1 1000000000.
Definition microseconds (n : Z) : duration := Duration n 1 1000000.
Definition milliseconds (n : Z) : duration := Duration n 1 1000.
Definition seconds (n : Z) : duration := Duration n 1 1.
Definition minutes (n : Z) : duration := Duration n 60 1.
Definition hours (n : Z) : duration := Duration n 3600 1.

(** Modelled from the spec: [frequency::cycles_per], absent from the
    sources; the magnitude times the duration in seconds, truncated toward
    zero. *)
Definition cycles_per (f : frequency) (p_duration : duration) : Z :=
  Z.quot (cycles_per_second f * (ticks p_duration * period_num p_duration))
         (period_den p_duration).

Record duty_cycle : Type := DutyCycle { high : Z; low : Z }.

(** Modelled from the spec: [frequency::calculate_duty_cycle], absent from
    the sources.  The total is [cycles_per] the period, [high] is the total
    scaled by the percent with the scalar product of [percent], and [low]
    is what remains.  [cycles_t] is the integral type of the cycle counts,
    which the sources at hand do not fix. *)
Definition calculate_duty_cycle (cycles_t : int_type) (f : frequency)
    (p_period : duration) (p_percent : percent) : duty_cycle :=
  let total_cycles := cycles_per f p_period in
  let high := operator_mul cycles_t total_cycles p_percent in
  let low := total_cycles - high in
  DutyCycle high low.



(** The expectations of [frequency_duty_cycle_test] on a period of 20 ms at
    14 MHz: the percent as the decimal literal [n / 100], then [high] and
    [low]. *)
Definition frequency_duty_cycle_test : list (Z * Z * Z) :=
  [ (100, 280000, 0);
    (99, 277200, 2800);
    (85, 238000, 42000);
    (45, 126000, 154000);
    (25, 70000, 210000);
    (5, 14000, 266000);
    (1, 2800, 277200);
    (0, 0, 280000) ].

(** The expectations of [frequency_cycles_per_test]. *)
Definition frequency_cycles_per_test : list (frequency * duration * Z) :=
  [ (MHz 1, microseconds 4, 4);
    (MHz 140, nanoseconds 12000, 1680);
    (Hz 10, seconds 1, 10);
    (MHz 48, microseconds 15, 720);
    (MHz 12, microseconds 16, 192);
    (MHz 8, minutes 2, 960000000);
    (kHz 32, hours 1, 115200000);
    (MHz 1, nanoseconds 100, 0);
    (Hz 100, milliseconds 1, 0);
    (kHz 100, microseconds 2, 0) ].

(** The expectations of the "4-bit_scaling" and "16-bit_scaling" cases of
    [percent_signed_test]: [convert<BitWidth>(value).raw_value()]. *)
Definition percent_signed_test : list (Z * Z * Z) :=
  [ (4, 7, 0x7FFFFFFF); (4, 6, 0x6DB6DB6D); (4, 5, 0x5B6DB6DB);
    (4, 4, 0x49249249); (4, 3, 0x36DB6DB6); (4, 2, 0x24924924);
    (4, 1, 0x12492492); (4, 0, 0);
    (4, -1, static_cast int32_t (Z.shiftl 15 28));
    (4, -2, static_cast int32_t (Z.shiftl 14 28));
    (4, -3, static_cast int32_t (Z.shiftl 13 28));
    (4, -4, static_cast int32_t (Z.shiftl 12 28));
    (4, -5, static_cast int32_t (Z.shiftl 11 28));
    (4, -6, static_cast int32_t (Z.shiftl 10 28));
    (4, -7, static_cast int32_t (Z.shiftl 9 28));
    (4, -8, static_cast int32_t (Z.shiftl 8 28));
    (16, 32767, 0x7FFFFFFF);
    (16, 0x0ABC, Z.lor 0x0ABC0000 (Z.shiftl 0x0ABC 1));
    (16, 1, Z.lor 0x00010000 (Z.shiftl 1 1));
    (16, 0, 0);
    (16, -1, static_cast int32_t (Z.shiftl 0xFFFF 16));
    (16, -2, static_cast int32_t (Z.shiftl 0xFFFE 16));
    (16, -3, static_cast int32_t (Z.shiftl 0xFFFD 16));
    (16, -4, static_cast int32_t (Z.shiftl 0xFFFC 16));
    (16, -5, static_cast int32_t (Z.shiftl 0xFFFB 16));
    (16, -6, static_cast int32_t (Z.shiftl 0xFFFA 16));
    (16, -7, static_cast int32_t (Z.shiftl 0xFFF9 16));
    (16, -8, static_cast int32_t (Z.shiftl 0xFFF8 16)) ].

(** The expectations of [percent_to_string_test] on decimal literals, in
    billionths, and on ratios. *)
Definition percent_to_string_test_literals : list (Z * string) :=
  [ (1000000000, "+1.000000000"); (0, "+0.000000000");
    (-1000000000, "-1.000000000");
    (999999998, "+0.999999998"); (999999995, "+0.999999995");
    (500000000, "+0.500000000"); (444000000, "+0.444000000");
    (234000000, "+0.234000000"); (5, "+0.000000005");
    (2, "+0.000000002"); (333000, "+0.000333000");
    (-999999998, "-0.999999998"); (-999999995, "-0.999999995");
    (-500000000, "-0.500000000"); (-444000000, "-0.444000000");
    (-234000000, "-0.234000000"); (-5, "-0.000000005");
    (-2, "-0.000000002"); (-333000, "-0.000333000") ]%string.

Definition percent_to_string_test_ratios : list (Z * Z * string) :=
  [ (1, 2147483647, "+0.000000000"); (-1, 2147483647, "-0.000000000");
    (3, 2147483647, "+0.000000001"); (-3, 2147483647, "-0.000000001");
    (2147483645, 2147483647, "+1.000000000");
    (-2147483645, 2147483647, "-1.000000000");
    (2147483644, 2147483647, "+0.999999999");
    (-2147483644, 2147483647, "-0.999999999") ]%string.

(** * Properties

    ** Integer conversions and the scalar product *)

Lemma pow2_pos (n : Z) : 0 <= n -> 0 < 2 ^ n.
Proof. intros. apply Z.pow_pos_nonneg; lia. Qed.

Lemma pow2_half (n : Z) : 0 < n -> 2 ^ n = 2 * 2 ^ (n - 1).
Proof.
  intros Hn. replace n with (Z.succ (n - 1)) at 1 by lia.
  apply Z.pow_succ_r. lia.
Qed.

Lemma static_cast_in_range (T : int_type) (v : Z) :
  0 < bits T -> in_range T v -> static_cast T v = v.
Proof.
  unfold in_range, int_min, int_max, static_cast.
  intros Hb Hv.
  pose proof (pow2_half (bits T) Hb) as Hh.
  pose proof (pow2_pos (bits T - 1) ltac:(lia)) as Hp.
  destruct (is_signed T); cbn [andb].
  - destruct (Z.neg_nonneg_cases v) as [Hneg | Hpos].
    + rewrite <- (Z.mod_add v 1) by lia.
      rewrite Z.mod_small by lia.
      destruct (Z.leb_spec (2 ^ (bits T - 1)) (v + 1 * 2 ^ bits T)); lia.
    + rewrite Z.mod_small by lia.
      destruct (Z.leb_spec (2 ^ (bits T - 1)) v); lia.
  - apply Z.mod_small. lia.
Qed.

Lemma static_cast_range (T : int_type) (v : Z) :
  0 < bits T -> in_range T (static_cast T v).
Proof.
  unfold in_range, int_min, int_max, static_cast.
  intros Hb.
  pose proof (pow2_half (bits T) Hb) as Hh.
  pose proof (pow2_pos (bits T - 1) ltac:(lia)) as Hp.
  pose proof (Z.mod_pos_bound v (2 ^ bits T) ltac:(lia)) as Hm.
  destruct (is_signed T); cbn [andb].
  - destruct (Z.leb_spec (2 ^ (bits T - 1)) (v mod 2 ^ bits T)); lia.
  - lia.
Qed.

Lemma in_range_narrow (T : int_type) (v : Z) :
  0 < bits T <= 32 -> in_range T v -> - 2 ^ 31 <= v <= 2 ^ 32 - 1.
Proof.
  unfold in_range, int_min, int_max. intros Hb Hv.
  assert (2 ^ (bits T - 1) <= 2 ^ 31) by (apply Z.pow_le_mono_r; lia).
  assert (2 ^ bits T <= 2 ^ 32) by (apply Z.pow_le_mono_r; lia).
  destruct (is_signed T); lia.
Qed.

Lemma in_range_overflow_t (v : Z) :
  - 2 ^ 63 <= v <= 2 ^ 63 - 1 -> static_cast overflow_t v = v.
Proof.
  intros Hv. apply static_cast_in_range; [reflexivity|].
  unfold in_range, int_min, int_max, overflow_t, int64_t; cbn [is_signed bits].
  change (64 - 1) with 63. lia.
Qed.

Lemma quot_abs_le (a b : Z) : b <> 0 -> Z.abs (Z.quot a b) <= Z.abs a.
Proof.
  intros Hb.
  rewrite <- Z.quot_abs by assumption.
  apply Z.quot_le_upper_bound; [lia|].
  assert (0 <= Z.abs a) by lia. nia.
Qed.

Lemma rounding_division_nonneg (n d : Z) :
  0 <= n -> 0 < d -> rounding_division n d = (2 * n + d) / (2 * d).
Proof.
  intros Hn Hd. unfold rounding_division.
  replace (0 <=? n) with true by (symmetry; apply Z.leb_le; lia).
  replace (0 <=? d) with true by (symmetry; apply Z.leb_le; lia).
  cbn [Bool.eqb].
  rewrite (Z.quot_div_nonneg d 2) by lia.
  assert (0 <= d / 2) by (apply Z.div_pos; lia).
  rewrite Z.quot_div_nonneg by lia.
  apply Z.div_unique_pos with (r := 2 * ((n + d / 2) mod d) + d mod 2).
  - pose proof (Z.mod_pos_bound (n + d / 2) d Hd).
    pose proof (Z.mod_pos_bound d 2 ltac:(lia)). lia.
  - pose proof (Z.div_mod (n + d / 2) d ltac:(lia)).
    pose proof (Z.div_mod d 2 ltac:(lia)). lia.
Qed.

Lemma rounding_division_neg (n d : Z) :
  n < 0 -> 0 < d -> rounding_division n d = - rounding_division (- n) d.
Proof.
  intros Hn Hd. unfold rounding_division.
  replace (0 <=? n) with false by (symmetry; apply Z.leb_gt; lia).
  replace (0 <=? - n) with true by (symmetry; apply Z.leb_le; lia).
  replace (0 <=? d) with true by (symmetry; apply Z.leb_le; lia).
  cbn [Bool.eqb].
  replace (n + - (d ÷ 2)) with (- (- n + d ÷ 2)) by ring.
  apply Z.quot_opp_l. lia.
Qed.

Lemma rounding_division_half_away (n d : Z) :
  0 < d -> rounding_division n d = round_half_away n d.
Proof.
  intros Hd. unfold round_half_away.
  rewrite (Z.sgn_pos d), (Z.abs_eq d) by lia.
  destruct (Z.neg_nonneg_cases n) as [Hneg | Hpos].
  - rewrite rounding_division_neg, rounding_division_nonneg by lia.
    rewrite Z.sgn_neg, Z.abs_neq by lia. lia.
  - rewrite rounding_division_nonneg by lia.
    rewrite Z.abs_eq by lia.
    destruct (Z.eq_dec n 0) as [-> | Hnz].
    + cbn [Z.sgn Z.mul Z.add]. rewrite Z.div_small by lia. reflexivity.
    + rewrite Z.sgn_pos by lia. lia.
Qed.

(** [round_half_away n d] is an integer nearest to [n / d]. *)
Lemma round_half_away_nearest (n d : Z) :
  0 < d -> 2 * Z.abs (round_half_away n d * d - n) <= d.
Proof.
  intros Hd. unfold round_half_away.
  rewrite (Z.sgn_pos d), (Z.abs_eq d) by lia.
  pose proof (Z.div_mod (2 * Z.abs n + d) (2 * d) ltac:(lia)) as E.
  pose proof (Z.mod_pos_bound (2 * Z.abs n + d) (2 * d) ltac:(lia)) as B.
  set (q := (2 * Z.abs n + d) / (2 * d)) in *.
  destruct (Z.neg_nonneg_cases n) as [Hneg | Hpos].
  - rewrite Z.sgn_neg by lia. rewrite Z.abs_neq in E, B by lia. nia.
  - destruct (Z.eq_dec n 0) as [-> | Hnz].
    + cbn. lia.
    + rewrite Z.sgn_pos by lia. rewrite Z.abs_eq in E, B by lia. nia.
Qed.

Lemma raw_max_value : raw_max = 2147483647.
Proof. reflexivity. Qed.

Lemma raw_min_value : raw_min = -2147483647.
Proof. reflexivity. Qed.

Lemma clamp_range (v lo hi : Z) : lo <= hi -> lo <= clamp v lo hi <= hi.
Proof.
  intros H. unfold clamp.
  destruct (Z.ltb_spec v lo); [lia|].
  destruct (Z.ltb_spec hi v); lia.
Qed.

Lemma in_range_int_t (v : Z) :
  in_range int_t v <-> -2147483648 <= v <= 2147483647.
Proof. reflexivity. Qed.




Lemma accumulator_product (v raw : Z) :
  - 2 ^ 31 <= v <= 2 ^ 32 - 1 -> in_range int_t raw ->
  static_cast overflow_t (static_cast overflow_t v * raw) = v * raw.
Proof.
  intros Hv Hr.
  apply (proj1 (in_range_int_t raw)) in Hr.
  change (2 ^ 31) with 2147483648 in Hv. change (2 ^ 32) with 4294967296 in Hv.
  rewrite (in_range_overflow_t v) by (change (2 ^ 63) with 9223372036854775808; lia).
  apply in_range_overflow_t. change (2 ^ 63) with 9223372036854775808.
  assert (Z.abs (v * raw) <= 4294967295 * 2147483648).
  { rewrite Z.abs_mul. apply Z.mul_le_mono_nonneg; lia. }
  lia.
Qed.

Lemma round_half_away_raw_max_strict (n : Z) :
  2 * Z.abs (round_half_away n raw_max * raw_max - n) < raw_max.
Proof.
  pose proof (round_half_away_nearest n raw_max ltac:(reflexivity)) as H.
  rewrite raw_max_value in *. lia.
Qed.

Lemma round_half_away_scaled (v raw d : Z) :
  0 < d -> - d <= raw <= d ->
  Z.abs (round_half_away (v * raw) d) <= Z.abs v.
Proof.
  intros Hd Hr. unfold round_half_away.
  rewrite (Z.sgn_pos d), (Z.abs_eq d) by lia.
  assert (Hle : (2 * Z.abs (v * raw) + d) / (2 * d) <= Z.abs v).
  { apply Z.lt_succ_r, Z.div_lt_upper_bound; [lia|].
    rewrite Z.abs_mul. assert (Z.abs raw <= d) by lia.
    assert (0 <= Z.abs v) by lia. nia. }
  assert (0 <= (2 * Z.abs (v * raw) + d) / (2 * d)) by (apply Z.div_pos; lia).
  set (q := (2 * Z.abs (v * raw) + d) / (2 * d)) in *.
  destruct (v * raw); cbn [Z.sgn]; lia.
Qed.

Lemma operator_mul_unfold (T : int_type) (v : Z) (p : percent) :
  - 2 ^ 31 <= v <= 2 ^ 32 - 1 -> in_range int_t (raw_value p) ->
  operator_mul T v p =
    static_cast T (round_half_away (v * raw_value p) raw_max).
Proof.
  intros Hv Hr. unfold operator_mul.
  rewrite accumulator_product by assumption.
  rewrite rounding_division_half_away by reflexivity.
  reflexivity.
Qed.

Lemma round_half_away_nonneg (n d : Z) :
  0 <= n -> 0 < d -> 0 <= round_half_away n d.
Proof.
  intros Hn Hd. unfold round_half_away.
  rewrite (Z.sgn_pos d), (Z.abs_eq d), (Z.abs_eq n) by lia.
  assert (0 <= (2 * n + d) / (2 * d)) by (apply Z.div_pos; lia).
  destruct n; cbn [Z.sgn]; lia.
Qed.

Lemma static_cast_signed_abs (T : int_type) (x : Z) :
  0 < bits T -> is_signed T = true ->
  Z.abs (static_cast T x) <= 2 ^ (bits T - 1).
Proof.
  intros Hb Hs.
  pose proof (static_cast_range T x Hb) as H.
  unfold in_range, int_min, int_max in H. rewrite Hs in H. lia.
Qed.

Lemma operator_mul_accumulator (T : int_type) (v : Z) (p : percent) :
  operator_mul T v p =
    static_cast T
      (round_half_away
         (static_cast overflow_t (static_cast overflow_t v * raw_value p))
         raw_max).
Proof.
  unfold operator_mul.
  rewrite rounding_division_half_away by reflexivity. reflexivity.
Qed.

(** C3.  The product of an integer [v] and a percent is the quotient of
    [v * raw], taken in the 64-bit accumulator, by [raw_max], rounded to the
    nearest integer and then converted to the type of [v].  The rounded
    quotient is the integer strictly nearest the exact one (the divisor is
    odd, so no tie arises); the commuted product is the same value.  For an
    operand of at most 32 bits the accumulator holds [v * raw] as it is.
    The conversion leaves the rounded quotient unchanged whenever the type
    of [v] holds it, which for a signed type of at most 32 bits is the case
    unless [v] is the minimum of the type or the raw value is
    [INT32_MIN]. *)
Theorem operator_mul_rounds_half_away_from_zero (T : int_type) (v : Z) (p : percent) :
  let accumulator :=
    static_cast overflow_t (static_cast overflow_t v * raw_value p) in
  let q := round_half_away accumulator raw_max in
  2 * Z.abs (q * raw_max - accumulator) < raw_max /\
  operator_mul T v p = static_cast T q /\
  operator_mul_commuted T p v = operator_mul T v p /\
  (- 2 ^ 31 <= v <= 2 ^ 32 - 1 -> in_range int_t (raw_value p) ->
   accumulator = v * raw_value p) /\
  (0 < bits T -> in_range T q -> operator_mul T v p = q) /\
  (0 < bits T <= 32 -> is_signed T = true -> in_range T v ->
   raw_min <= raw_value p <= raw_max -> int_min T < v ->
   operator_mul T v p = q).
Proof.
  intros accumulator q.
  assert (Hexact : 0 < bits T -> in_range T q -> operator_mul T v p = q).
  { intros Hb Hq. rewrite operator_mul_accumulator.
    apply static_cast_in_range; assumption. }
  split; [apply round_half_away_raw_max_strict|].
  split; [apply operator_mul_accumulator|].
  split; [reflexivity|].
  split; [intros Hv Hr; apply accumulator_product; assumption|].
  split; [exact Hexact|].
  intros Hb Hs Hv Hr Hmin. apply Hexact; [lia|].
  assert (Hr32 : in_range int_t (raw_value p)).
  { apply in_range_int_t. rewrite raw_min_value, raw_max_value in Hr. lia. }
  subst q accumulator.
  rewrite accumulator_product by (try apply (in_range_narrow T); assumption).
  pose proof (round_half_away_scaled v (raw_value p) raw_max
                ltac:(reflexivity)) as Hq.
  rewrite raw_min_value, raw_max_value in *.
  specialize (Hq ltac:(lia)).
  unfold in_range, int_min, int_max in *. rewrite Hs in *. lia.
Qed.

Lemma operator_mul_rounds_half_away_from_zero_witness :
  in_range int32_t 10 /\
  operator_mul int32_t 10 (from_ratio 19 100) =
    round_half_away (10 * raw_value (from_ratio 19 100)) raw_max /\
  operator_mul_commuted int32_t (from_ratio 19 100) 10 =
    operator_mul int32_t 10 (from_ratio 19 100).
Proof.
  assert (Hv : in_range int32_t 10) by (vm_compute; split; discriminate).
  destruct (operator_mul_rounds_half_away_from_zero int32_t 10
              (from_ratio 19 100))
    as (_ & _ & Hcomm & Hacc & _ & Hexact).
  split; [exact Hv|]. split; [|exact Hcomm].
  rewrite <- Hacc; [| vm_compute; split; discriminate
                    | vm_compute; split; discriminate].
  apply Hexact.
  - vm_compute. split; [reflexivity | discriminate].
  - reflexivity.
  - exact Hv.
  - vm_compute. split; discriminate.
  - reflexivity.
Defined.

(** C3, refuted as stated: the rounded quotient of [INT32_MIN] by -100% is
    [2 ^ 31], which [int32_t] does not hold; the product is [INT32_MIN]. *)
Lemma operator_mul_int32_min_wraps :
  in_range int32_t (-2147483648) /\
  raw_min <= raw_value (Percent raw_min) <= raw_max /\
  rounding_division (-2147483648 * raw_value (Percent raw_min)) raw_max
    = 2147483648 /\
  round_half_away (-2147483648 * raw_value (Percent raw_min)) raw_max
    = 2147483648 /\
  operator_mul int32_t (-2147483648) (Percent raw_min) = -2147483648.
Proof. vm_compute. repeat split; discriminate. Qed.

(** The rounding is seen where truncation would differ: 19% of 10 is 2,
    and 19% of -10 is -2. *)
Lemma operator_mul_differs_from_truncation :
  operator_mul int32_t 10 (from_ratio 19 100) = 2 /\
  Z.quot (10 * raw_value (from_ratio 19 100)) raw_max = 1 /\
  operator_mul int32_t (-10) (from_ratio 19 100) = -2.
Proof. repeat split; reflexivity. Qed.

(** C10.  Scaling by a percent within [raw_min, raw_max] never increases
    the magnitude of an integer of at most 32 bits, provided its type is
    signed or the percent is not negative. *)
Theorem operator_mul_never_increases_magnitude (T : int_type) (v : Z) (p : percent) :
  0 < bits T <= 32 -> in_range T v ->
  raw_min <= raw_value p <= raw_max ->
  is_signed T = true \/ 0 <= raw_value p ->
  Z.abs (operator_mul T v p) <= Z.abs v.
Proof.
  intros Hb Hv Hr Hsign.
  assert (Hr32 : in_range int_t (raw_value p)).
  { apply in_range_int_t. rewrite raw_min_value, raw_max_value in Hr. lia. }
  rewrite operator_mul_unfold by (try apply (in_range_narrow T); assumption).
  pose proof (round_half_away_scaled v (raw_value p) raw_max
                ltac:(reflexivity)) as Hq.
  rewrite raw_min_value, raw_max_value in *.
  specialize (Hq ltac:(lia)).
  set (q := round_half_away (v * raw_value p) 2147483647) in *.
  destruct (is_signed T) eqn:Hs.
  - pose proof (static_cast_signed_abs T q ltac:(lia) Hs) as Hc.
    destruct (Z_le_gt_dec (int_min T) q) as [Hlo | Hlo];
      [destruct (Z_le_gt_dec q (int_max T)) as [Hhi | Hhi]|].
    + rewrite static_cast_in_range by (unfold in_range; lia). exact Hq.
    + unfold int_max in Hhi. rewrite Hs in Hhi. lia.
    + unfold int_min in Hlo. rewrite Hs in Hlo. lia.
  - destruct Hsign as [Hsign | Hsign]; [discriminate|].
    assert (0 <= v) by (unfold in_range, int_min in Hv; rewrite Hs in Hv; lia).
    assert (0 <= q).
    { apply round_half_away_nonneg; [|lia]. apply Z.mul_nonneg_nonneg; lia. }
    rewrite static_cast_in_range; [lia | lia |].
    unfold in_range in *. unfold int_min in *. rewrite Hs in *. lia.
Qed.

Lemma operator_mul_never_increases_magnitude_witness :
  in_range int32_t (-2147483648) /\
  Z.abs (operator_mul int32_t (-2147483648) (Percent raw_min))
    <= Z.abs (-2147483648).
Proof.
  assert (Hv : in_range int32_t (-2147483648))
    by (vm_compute; split; discriminate).
  split; [exact Hv|].
  apply operator_mul_never_increases_magnitude.
  - vm_compute. split; [reflexivity | discriminate].
  - exact Hv.
  - vm_compute. split; discriminate.
  - left. reflexivity.
Defined.

(** C10, refuted as stated: an unsigned operand and a negative percent.
    The product -2 has no unsigned value; the conversion to [uint32_t]
    makes it 4294967294. *)
Lemma operator_mul_unsigned_wraps :
  in_range uint32_t 2 /\
  raw_min <= raw_value (Percent raw_min) <= raw_max /\
  operator_mul uint32_t 2 (Percent raw_min) = 4294967294 /\
  Z.abs 2 < Z.abs (operator_mul uint32_t 2 (Percent raw_min)).
Proof. vm_compute. repeat split; discriminate. Qed.

(** ** Decimal serialization *)

Lemma padded_decimal_zero (k : nat) :
  padded_decimal k 0 = replicate k "0"%char.
Proof.
  induction k as [|k IH]; [reflexivity|].
  cbn [padded_decimal]. change (0 / 10) with 0. rewrite IH.
  change [digit_char (0 mod 10)] with (replicate 1 "0"%char).
  rewrite <- replicate_add. f_equal. lia.
Qed.

Lemma padded_decimal_length (k : nat) (n : Z) :
  length (padded_decimal k n) = k.
Proof.
  revert n. induction k as [|k IH]; intros n; [reflexivity|].
  cbn [padded_decimal]. rewrite length_app, IH. cbn. lia.
Qed.

Lemma padded_decimal_digits (k : nat) (n : Z) :
  Forall is_digit (padded_decimal k n).
Proof.
  revert n. induction k as [|k IH]; intros n; [constructor|].
  cbn [padded_decimal]. apply Forall_app. split; [apply IH|].
  constructor; [|constructor].
  exists (n mod 10). split; [|reflexivity].
  pose proof (Z.mod_pos_bound n 10 ltac:(lia)). lia.
Qed.

Lemma to_chars_digits_padded (k : nat) :
  forall (fuel : nat) (n : Z) (acc : list ascii),
    (1 <= k <= fuel)%nat -> 0 <= n < 10 ^ Z.of_nat k ->
    exists (z : nat) (l : list ascii),
      (z < k)%nat /\
      to_chars_digits fuel n acc = l ++ acc /\
      replicate z "0"%char ++ l = padded_decimal k n /\
      length l = (k - z)%nat.
Proof.
  induction k as [|k IH]; intros fuel n acc Hk Hn; [lia|].
  destruct fuel as [|fuel]; [lia|].
  cbn [to_chars_digits padded_decimal].
  destruct (Z.eqb_spec (n / 10) 0) as [Hz | Hnz].
  - exists k, [digit_char (n mod 10)].
    rewrite Hz, padded_decimal_zero. repeat split; [lia | cbn; lia].
  - assert (Hk1 : (1 <= k)%nat).
    { destruct k; [|lia]. change (10 ^ Z.of_nat 1) with 10 in Hn.
      rewrite Z.div_small in Hnz by lia. contradiction. }
    assert (Hdiv : 0 <= n / 10 < 10 ^ Z.of_nat k).
    { split; [apply Z.div_pos; lia|].
      apply Z.div_lt_upper_bound; [lia|].
      rewrite Nat2Z.inj_succ, Z.pow_succ_r in Hn by lia. lia. }
    destruct (IH fuel (n / 10) (digit_char (n mod 10) :: acc) ltac:(lia) Hdiv)
      as (z & l & Hz & Heq & Hpad & Hlen).
    exists z, (l ++ [digit_char (n mod 10)]).
    rewrite Heq, <- Hpad, length_app, Hlen.
    repeat split; [lia | | | cbn; lia].
    + rewrite <- app_assoc. reflexivity.
    + rewrite app_assoc. reflexivity.
Qed.

Lemma absolute_percent_abs (p : percent) :
  raw_min <= raw_value p <= raw_max ->
  (if raw_value p <? 0
   then Percent (static_cast int_t (raw_value p * -1)) else p)
  = Percent (Z.abs (raw_value p)).
Proof.
  rewrite raw_min_value, raw_max_value. intros Hr.
  destruct p as [raw]; cbn [raw_value m_value] in *.
  destruct (Z.ltb_spec raw 0).
  - rewrite static_cast_in_range; [f_equal; lia | reflexivity |].
    apply in_range_int_t. lia.
  - f_equal. lia.
Qed.

Lemma billionths_range (p : percent) :
  raw_min + 2 < raw_value p < raw_max - 2 ->
  0 <= billionths p < 10 ^ 9.
Proof.
  rewrite raw_min_value, raw_max_value. intros Hr.
  unfold billionths, operator_mul_commuted.
  rewrite (operator_mul_unfold int_t);
    [| cbv; split; discriminate
     | apply in_range_int_t; cbn [raw_value m_value]; lia ].
  cbn [raw_value m_value]. unfold fixed_percent_scalar.
  rewrite raw_max_value.
  set (a := Z.abs (raw_value p)).
  assert (Ha : 0 <= a <= 2147483644) by (subst a; lia).
  assert (Hq : 0 <= round_half_away (1000000000 * a) 2147483647 < 10 ^ 9).
  { split; [apply round_half_away_nonneg; lia|].
    unfold round_half_away.
    rewrite (Z.sgn_pos 2147483647), (Z.abs_eq 2147483647), (Z.abs_eq (_ * a)) by lia.
    assert ((2 * (1000000000 * a) + 2147483647) / (2 * 2147483647) < 10 ^ 9).
    { apply Z.div_lt_upper_bound; [lia|]. change (10 ^ 9) with 1000000000. lia. }
    assert (0 <= (2 * (1000000000 * a) + 2147483647) / (2 * 2147483647))
      by (apply Z.div_pos; lia).
    destruct (1000000000 * a); cbn [Z.sgn]; lia. }
  rewrite static_cast_in_range; [exact Hq | reflexivity |].
  apply in_range_int_t. change (10 ^ 9) with 1000000000 in Hq. lia.
Qed.

Lemma to_chars_padded (n : Z) :
  0 <= n < 10 ^ 9 ->
  exists (z : nat) (l : list ascii),
    (z < 9)%nat /\ to_chars n = l /\
    replicate z "0"%char ++ l = padded_decimal 9 n /\
    length l = (9 - z)%nat.
Proof.
  intros Hn. unfold to_chars.
  replace (n <? 0) with false by (symmetry; apply Z.ltb_ge; lia).
  destruct (to_chars_digits_padded 9 20 n [] ltac:(lia) Hn)
    as (z & l & Hz & Heq & Hpad & Hlen).
  exists z, l. rewrite Heq, app_nil_r. auto.
Qed.

Ltac explicit_list l :=
  repeat (destruct l as [|? l]; [try discriminate | try discriminate]).

Lemma to_string_inner (p : percent) :
  raw_min + 2 < raw_value p < raw_max - 2 ->
  to_string p =
    (if raw_value p <? 0 then "-"%char else "+"%char) :: "0"%char :: "."%char
      :: padded_decimal 9 (billionths p) ++ [zero].
Proof.
  intros Hr.
  pose proof (billionths_range p Hr) as Hb.
  destruct (to_chars_padded _ Hb) as (z & l & Hz & Heq & Hpad & Hlen).
  rewrite <- Hpad. unfold billionths in Heq.
  unfold to_string.
  rewrite raw_min_value, raw_max_value in Hr.
  replace (raw_max - 2 <=? raw_value p) with false
    by (symmetry; apply Z.leb_gt; rewrite raw_max_value; lia).
  replace (raw_value p <=? raw_min + 2) with false
    by (symmetry; apply Z.leb_gt; rewrite raw_min_value; lia).
  rewrite absolute_percent_abs by (rewrite raw_min_value, raw_max_value; lia).
  cbv zeta. rewrite Heq. clear Heq Hpad Hb.
  destruct (raw_value p <? 0);
    do 9 (destruct z as [|z]; [explicit_list l; reflexivity|]); lia.
Qed.

Lemma to_string_upper (p : percent) :
  raw_max - 2 <= raw_value p ->
  to_string p = list_ascii_of_string "+1.000000000" ++ [zero].
Proof.
  intros Hr. unfold to_string.
  replace (raw_max - 2 <=? raw_value p) with true
    by (symmetry; apply Z.leb_le; exact Hr).
  reflexivity.
Qed.

Lemma to_string_lower (p : percent) :
  raw_value p <= raw_min + 2 ->
  to_string p = list_ascii_of_string "-1.000000000" ++ [zero].
Proof.
  intros Hr. unfold to_string.
  rewrite raw_min_value in Hr.
  replace (raw_max - 2 <=? raw_value p) with false
    by (symmetry; apply Z.leb_gt; rewrite raw_max_value; lia).
  replace (raw_value p <=? raw_min + 2) with true
    by (symmetry; apply Z.leb_le; rewrite raw_min_value; exact Hr).
  reflexivity.
Qed.

(** C4.  A percent whose raw value is within 2 of [raw_max] serializes to
    exactly "+1.000000000", and one within 2 of [raw_min] to exactly
    "-1.000000000", each followed by the terminator. *)
Theorem to_string_saturates (p : percent) :
  (raw_max - 2 <= raw_value p ->
   to_string p = list_ascii_of_string "+1.000000000" ++ [zero]) /\
  (raw_value p <= raw_min + 2 ->
   to_string p = list_ascii_of_string "-1.000000000" ++ [zero]).
Proof.
  split; [apply to_string_upper | apply to_string_lower].
Qed.

Lemma to_string_saturates_witness :
  to_string (Percent (raw_max - 2)) = list_ascii_of_string "+1.000000000" ++ [zero] /\
  to_string (Percent (raw_min + 2)) = list_ascii_of_string "-1.000000000" ++ [zero].
Proof.
  split.
  - apply (proj1 (to_string_saturates (Percent (raw_max - 2)))).
    vm_compute. discriminate.
  - apply (proj2 (to_string_saturates (Percent (raw_min + 2)))).
    vm_compute. discriminate.
Defined.

(** C5, refuted as stated: two below [raw_max] the magnitude in billionths
    is 999999999, yet the text is the saturated "+1.000000000". *)
Lemma to_string_saturated_fraction :
  raw_min <= raw_value (Percent (raw_max - 2)) <= raw_max /\
  billionths (Percent (raw_max - 2)) = 999999999 /\
  padded_decimal 9 (billionths (Percent (raw_max - 2)))
    = list_ascii_of_string "999999999" /\
  to_string (Percent (raw_max - 2))
    = "+"%char :: "1"%char :: "."%char
        :: list_ascii_of_string "000000000" ++ [zero].
Proof.
  split; [vm_compute; split; discriminate|].
  repeat split; reflexivity.
Qed.

(** C5.  Every percent serializes to a buffer of 13 bytes: a sign, one
    digit that is 0 or 1, a point, nine decimal digits and the terminator.
    Outside the two saturated bands the leading digit is 0, the sign is that
    of the raw value, and the nine digits are the magnitude in billionths
    (scalar product with 1000000000), zero padded; inside them the text is
    +1.000000000 or -1.000000000. *)
Theorem to_string_format (p : percent) :
  exists (sign lead : ascii) (fraction : list ascii),
    to_string p = sign :: lead :: "."%char :: fraction ++ [zero] /\
    length (to_string p) = 13%nat /\
    (sign = "+"%char \/ sign = "-"%char) /\
    (lead = "0"%char \/ lead = "1"%char) /\
    length fraction = 9%nat /\
    Forall is_digit fraction /\
    (raw_min + 2 < raw_value p < raw_max - 2 ->
     sign = (if raw_value p <? 0 then "-"%char else "+"%char) /\
     lead = "0"%char /\
     fraction = padded_decimal 9 (billionths p)) /\
    (raw_max - 2 <= raw_value p ->
     sign = "+"%char /\ lead = "1"%char /\ fraction = padded_decimal 9 0) /\
    (raw_value p <= raw_min + 2 ->
     sign = "-"%char /\ lead = "1"%char /\ fraction = padded_decimal 9 0).
Proof.
  pose proof raw_min_value as Hmin. pose proof raw_max_value as Hmax.
  destruct (Z_le_gt_dec (raw_max - 2) (raw_value p)) as [Hhi | Hhi];
    [| destruct (Z_le_gt_dec (raw_value p) (raw_min + 2)) as [Hlo | Hlo]].
  - exists "+"%char, "1"%char, (padded_decimal 9 0).
    rewrite (to_string_upper p Hhi).
    split; [reflexivity|]. split; [reflexivity|].
    split; [now left|]. split; [now right|]. split; [reflexivity|].
    split; [apply padded_decimal_digits|].
    split; [lia|]. split; [auto | lia].
  - exists "-"%char, "1"%char, (padded_decimal 9 0).
    rewrite (to_string_lower p Hlo).
    split; [reflexivity|]. split; [reflexivity|].
    split; [now right|]. split; [now right|]. split; [reflexivity|].
    split; [apply padded_decimal_digits|].
    split; [lia|]. split; [lia | auto].
  - exists (if raw_value p <? 0 then "-"%char else "+"%char), "0"%char,
      (padded_decimal 9 (billionths p)).
    rewrite to_string_inner by lia.
    split; [reflexivity|].
    split; [cbn [length]; rewrite length_app, padded_decimal_length; reflexivity|].
    split; [destruct (raw_value p <? 0); auto|].
    split; [now left|].
    split; [apply padded_decimal_length|].
    split; [apply padded_decimal_digits|].
    split; [auto|]. split; lia.
Qed.

Lemma to_string_format_witness :
  exists fraction : list ascii,
    to_string (from_ratio (-1) 3)
      = "-"%char :: "0"%char :: "."%char :: fraction ++ [zero] /\
    fraction = padded_decimal 9 (billionths (from_ratio (-1) 3)) /\
    visible (to_string (from_ratio (-1) 3)) = "-0.333333333"%string.
Proof.
  destruct (to_string_format (from_ratio (-1) 3))
    as (sign & lead & fraction & Heq & _ & _ & _ & _ & _ & Hinner & _ & _).
  destruct (Hinner ltac:(vm_compute; split; reflexivity))
    as (Hsign & Hlead & Hfraction).
  exists fraction. rewrite Heq, Hsign, Hlead.
  split; [reflexivity|]. split; [exact Hfraction|].
  rewrite Hfraction. reflexivity.
Defined.

(** ** Bit scaling *)

Lemma static_cast_mod (T : int_type) (a b : Z) :
  a mod 2 ^ bits T = b mod 2 ^ bits T -> static_cast T a = static_cast T b.
Proof. unfold static_cast. intros ->. reflexivity. Qed.

Lemma static_cast_twice (T P : int_type) (x : Z) :
  0 < bits T <= bits P -> static_cast T (static_cast P x) = static_cast T x.
Proof.
  intros Hb. apply static_cast_mod.
  assert (Hdiv : (2 ^ bits T | 2 ^ bits P)).
  { exists (2 ^ (bits P - bits T)). rewrite <- Z.pow_add_r by lia. f_equal. lia. }
  pose proof (pow2_pos (bits T) ltac:(lia)) as HT.
  pose proof (pow2_pos (bits P) ltac:(lia)) as HP.
  unfold static_cast.
  destruct (is_signed P && (2 ^ (bits P - 1) <=? x mod 2 ^ bits P)).
  - destruct Hdiv as [k Hk].
    replace (x mod 2 ^ bits P - 2 ^ bits P)
      with (x mod 2 ^ bits P + (- k) * 2 ^ bits T) by lia.
    rewrite Z.mod_add by lia.
    apply Z.mod_mod_divide; exists k; exact Hk.
  - apply Z.mod_mod_divide; exact Hdiv.
Qed.

Section Replication.
Variable T : int_type.
Variables s f : Z.
Hypothesis Hs : 1 <= s.
Hypothesis Hf : s <= f.
Hypothesis HT : 0 < bits T.
Hypothesis HfT : 2 ^ f - 1 <= int_max T.

Local Abbreviation d := (f - s).

Lemma lor_below (x y : Z) :
  0 <= x < 2 ^ f -> 0 <= y < 2 ^ f -> 0 <= Z.lor x y < 2 ^ f.
Proof.
  intros Hx Hy.
  assert (Hn : 0 <= Z.lor x y) by (apply Z.lor_nonneg; lia).
  split; [exact Hn|].
  destruct (Z.eq_dec (Z.lor x y) 0) as [-> | Hnz].
  - apply pow2_pos. lia.
  - apply Z.log2_lt_pow2; [lia|].
    rewrite Z.log2_lor by lia.
    destruct (Z.eq_dec x 0) as [-> | Hx0];
      destruct (Z.eq_dec y 0) as [-> | Hy0].
    + cbn in Hnz. contradiction.
    + cbn [Z.log2]. apply Z.max_lub_lt; [lia|]. apply Z.log2_lt_pow2; lia.
    + cbn [Z.log2]. apply Z.max_lub_lt; [|lia]. apply Z.log2_lt_pow2; lia.
    + apply Z.max_lub_lt; apply Z.log2_lt_pow2; lia.
Qed.

Lemma shiftr_below (x i : Z) :
  0 <= i -> 0 <= x < 2 ^ f -> 0 <= Z.shiftr x i < 2 ^ f.
Proof.
  intros Hi Hx. rewrite Z.shiftr_div_pow2 by lia.
  pose proof (pow2_pos i Hi).
  split; [apply Z.div_pos; lia|].
  apply Z.div_lt_upper_bound; [lia|]. nia.
Qed.

Lemma in_range_below (x : Z) : 0 <= x < 2 ^ f -> in_range T x.
Proof.
  intros Hx. unfold in_range. split; [|lia].
  unfold int_min. destruct (is_signed T); [|lia].
  pose proof (pow2_pos (bits T - 1) ltac:(lia)). lia.
Qed.

(** One pass of the loop body keeps the leading [s] bits. *)
Lemma replicate_step (a i r : Z) :
  s <= i -> 0 <= r < 2 ^ f -> Z.shiftr r d = a ->
  let r' := static_cast T (Z.lor r (Z.shiftr r i)) in
  0 <= r' < 2 ^ f /\ Z.shiftr r' d = a.
Proof.
  intros Hi Hr Ha r'. subst r'.
  pose proof (shiftr_below r i ltac:(lia) Hr) as Hsh.
  pose proof (lor_below _ _ Hr Hsh) as Hl.
  rewrite static_cast_in_range by (try apply in_range_below; assumption).
  split; [exact Hl|].
  rewrite Z.shiftr_lor, Ha, Z.shiftr_shiftr by lia.
  rewrite (Z.shiftr_div_pow2 r (i + d)) by lia.
  rewrite Z.div_small; [apply Z.lor_0_r|].
  split; [lia|].
  apply Z.lt_le_trans with (2 ^ f); [lia|].
  apply Z.pow_le_mono_r; lia.
Qed.

Lemma replicate_bits_keeps_leading (fuel : nat) :
  forall (a i r : Z),
    s <= i -> 0 <= r < 2 ^ f -> Z.shiftr r d = a ->
    let r' := replicate_bits fuel T s f i r in
    0 <= r' < 2 ^ f /\ Z.shiftr r' d = a.
Proof.
  induction fuel as [|fuel IH]; intros a i r Hi Hr Ha; cbn [replicate_bits].
  - auto.
  - destruct (i <? f); [|auto].
    destruct (replicate_step a i r Hi Hr Ha) as [Hr' Ha'].
    apply IH; [lia | exact Hr' | exact Ha'].
Qed.

(** The fuel given by [upscale_integer] is never what stops the loop. *)
Lemma replicate_bits_fuel (fuel : nat) :
  forall (extra : nat) (i r : Z),
    f - i <= Z.of_nat fuel ->
    replicate_bits (fuel + extra) T s f i r = replicate_bits fuel T s f i r.
Proof.
  induction fuel as [|fuel IH]; intros extra i r Hfuel.
  - cbn [Nat.add replicate_bits]. destruct extra; [reflexivity|].
    cbn [replicate_bits].
    destruct (Z.ltb_spec i f); [lia | reflexivity].
  - cbn [Nat.add replicate_bits].
    destruct (i <? f); [|reflexivity].
    apply IH. lia.
Qed.
Lemma replicate_bits_terminates (extra : nat) (r : Z) :
  replicate_bits (Z.to_nat f + extra) T s f s r
  = replicate_bits (Z.to_nat f) T s f s r.
Proof. apply replicate_bits_fuel. lia. Qed.
End Replication.

Section Upscale.
Variables T U : int_type.
Variable SourceWidth : Z.
Hypothesis Hasserts : upscale_asserts T SourceWidth.
Hypothesis Hpromote : bits T <= bits (promote U).
Hypothesis Hsigned : is_signed U = true -> is_signed T = true.
Hypothesis Hshift : 0 <= width_difference T U SourceWidth.

Local Abbreviation s := (final_source_width U SourceWidth).
Local Abbreviation f := (final_width T).
Local Abbreviation d := (width_difference T U SourceWidth).

Lemma upscale_widths : 1 <= s /\ s <= f /\ 0 < bits T /\ d = f - s.
Proof.
  destruct Hasserts as [H1 H2].
  unfold width_difference, final_source_width, final_width in *.
  destruct (is_signed U), (is_signed T); lia.
Qed.

Lemma final_width_max : 2 ^ f - 1 <= int_max T.
Proof.
  unfold final_width, int_max. destruct (is_signed T); lia.
Qed.

Lemma source_range_shifted (v : Z) :
  source_range U SourceWidth v ->
  (if is_signed U then - 2 ^ f else 0) <= v * 2 ^ d <= 2 ^ f - 2 ^ d.
Proof.
  destruct upscale_widths as (Hs & Hf & HT & Hd).
  unfold source_range, in_range, int_min, int_max; cbn [bits is_signed].
  intros Hv.
  assert (H2s : 2 ^ f = 2 ^ s * 2 ^ d).
  { rewrite <- Z.pow_add_r by lia. f_equal. lia. }
  pose proof (pow2_pos d ltac:(lia)) as Hpd.
  pose proof (pow2_pos s ltac:(lia)) as Hps.
  unfold final_source_width in *.
  destruct (is_signed U); nia.
Qed.

Lemma upscale_integer_leading (v : Z) :
  source_range U SourceWidth v ->
  exists r,
    upscale_integer T SourceWidth U v = Some r /\
    v * 2 ^ d <= r < (v + 1) * 2 ^ d /\
    (v <= 0 -> r = v * 2 ^ d) /\
    in_range T r.
Proof.
  intros Hv.
  destruct upscale_widths as (Hs & Hf & HT & Hd).
  pose proof final_width_max as Hmax.
  pose proof (source_range_shifted v Hv) as Hx.
  pose proof (pow2_pos d ltac:(lia)) as Hpd.
  pose proof (pow2_pos f ltac:(lia)) as Hpf.
  assert (HinT : in_range T (v * 2 ^ d)).
  { unfold in_range. split; [|lia].
    unfold int_min.
    destruct (is_signed U) eqn:HU.
    - rewrite (Hsigned eq_refl). unfold final_width in *.
      rewrite (Hsigned eq_refl) in *. lia.
    - destruct (is_signed T); [|lia].
      pose proof (pow2_pos (bits T - 1) ltac:(lia)). lia. }
  unfold upscale_integer.
  fold (final_source_width U SourceWidth) (final_width T).
  fold (width_difference T U SourceWidth).
  replace ((0 <=? d) && (d <? bits (promote U))) with true.
  2:{ symmetry. apply andb_true_iff. split; [apply Z.leb_le | apply Z.ltb_lt].
      - lia.
      - unfold final_width in *. destruct (is_signed T); lia. }
  rewrite static_cast_twice by lia.
  rewrite Z.shiftl_mul_pow2 by lia.
  rewrite (static_cast_in_range T (v * 2 ^ d)) by assumption.
  destruct (Z.ltb_spec 0 v) as [Hpos | Hneg].
  - assert (Hx0 : 0 <= v * 2 ^ d < 2 ^ f) by nia.
    assert (Hlead : Z.shiftr (v * 2 ^ d) (f - s) = v).
    { rewrite <- Hd, Z.shiftr_div_pow2 by lia. apply Z.div_mul. lia. }
    destruct (replicate_bits_keeps_leading T s f Hs Hf HT Hmax
                (Z.to_nat f) v s (v * 2 ^ d) ltac:(lia) Hx0 Hlead)
      as [Hr Hsh].
    eexists. split; [reflexivity|].
    rewrite <- Hd, Z.shiftr_div_pow2 in Hsh by lia.
    set (r := replicate_bits _ _ _ _ _ _) in *.
    split; [|split; [lia | eapply in_range_below; eassumption]].
    pose proof (Z.div_mod r (2 ^ d) ltac:(lia)).
    pose proof (Z.mod_pos_bound r (2 ^ d) ltac:(lia)).
    rewrite Hsh in *. lia.
  - eexists. split; [reflexivity|].
    split; [lia | split; [reflexivity | exact HinT]].
Qed.
End Upscale.


Lemma promote_bits (U : int_type) : 32 <= bits (promote U).
Proof.
  unfold promote. destruct (Z.ltb_spec (bits U) 32); [reflexivity | lia].
Qed.

(** What [convert] stores: a value of [int_t], which is [INT32_MIN] for
    the most negative input of a signed source and nothing else. *)
Lemma convert_range (BitWidth : Z) (U : int_type) (v : Z) :
  upscale_asserts int_t BitWidth ->
  0 <= width_difference int_t U BitWidth ->
  source_range U BitWidth v ->
  exists p,
    convert BitWidth U v = Some p /\
    in_range int_t (raw_value p) /\
    (raw_value p < raw_min <->
     is_signed U = true /\ v = - 2 ^ (BitWidth - 1)).
Proof.
  intros Hasserts Hshift Hv.
  destruct (upscale_integer_leading int_t U BitWidth Hasserts
              (promote_bits U) (fun _ => eq_refl) Hshift v Hv)
    as (r & Er & Hr & Hneg & Hin).
  unfold convert. rewrite Er. exists (Percent r).
  split; [reflexivity|]. split; [exact Hin|].
  cbn [raw_value m_value]. rewrite raw_min_value.
  apply (proj1 (in_range_int_t r)) in Hin.
  destruct Hasserts as [Hw1 Hw2].
  unfold source_range, in_range, int_min, int_max in Hv.
  cbn [bits is_signed] in Hv.
  unfold width_difference, final_width, final_source_width in *.
  cbn [bits is_signed int_t int32_t] in *.
  destruct (is_signed U) eqn:HU.
  - replace (32 - 1 - (BitWidth - 1)) with (32 - BitWidth) in * by lia.
    pose proof (pow2_pos (32 - BitWidth) ltac:(lia)) as Hpd.
    assert (Hsplit : 2 ^ 31 = 2 ^ (BitWidth - 1) * 2 ^ (32 - BitWidth)).
    { rewrite <- Z.pow_add_r by lia. f_equal. lia. }
    change (2 ^ 31) with 2147483648 in Hsplit.
    split.
    + intros Hlt. split; [reflexivity|]. nia.
    + intros [_ ->]. rewrite Hneg; [nia|].
      pose proof (pow2_pos (BitWidth - 1) ltac:(lia)). lia.
  - split; [|intros [? _]; discriminate].
    intros Hlt. pose proof (pow2_pos (32 - 1 - BitWidth) ltac:(lia)). nia.
Qed.



(** ** Frequencies and duty cycles *)




(** The model of [cycles_per] meets [frequency_cycles_per_test]. *)
Lemma cycles_per_meets_test :
  Forall (fun '(f, d, q) => cycles_per f d = q) frequency_cycles_per_test.
Proof. repeat constructor. Qed.

(** C8.  With a total of cycles that is non-negative and fits 32 bits, and
    a percent between 0% and 100%, [high] and [low] add up to the total
    exactly, neither is negative, and [high] is the total scaled by the
    percent, rounded to nearest with a tie away from zero. *)
Theorem calculate_duty_cycle_split (cycles_t : int_type) (f : frequency)
    (p_period : duration) (p_percent : percent) :
  let total_cycles := cycles_per f p_period in
  let split := calculate_duty_cycle cycles_t f p_period p_percent in
  0 < bits cycles_t -> in_range cycles_t total_cycles ->
  0 <= total_cycles <= 2 ^ 32 - 1 ->
  0 <= raw_value p_percent <= raw_max ->
  high split + low split = total_cycles /\
  0 <= high split /\ 0 <= low split /\
  high split = round_half_away (total_cycles * raw_value p_percent) raw_max.
Proof.
  intros total split Hb Hin Htotal Hraw. subst split.
  unfold calculate_duty_cycle. cbn [high low]. fold total.
  assert (Hr32 : in_range int_t (raw_value p_percent)).
  { apply in_range_int_t. rewrite raw_max_value in Hraw. lia. }
  rewrite operator_mul_unfold by (try assumption; lia).
  pose proof (round_half_away_scaled total (raw_value p_percent) raw_max
                ltac:(reflexivity) ltac:(lia)) as Hq.
  pose proof (round_half_away_nonneg (total * raw_value p_percent) raw_max
                ltac:(apply Z.mul_nonneg_nonneg; lia) ltac:(reflexivity)) as H0.
  set (q := round_half_away (total * raw_value p_percent) raw_max) in *.
  rewrite static_cast_in_range; [lia | exact Hb |].
  unfold in_range in *. split; [|lia].
  unfold int_min in *. destruct (is_signed cycles_t); lia.
Qed.

Lemma calculate_duty_cycle_split_witness :
  calculate_duty_cycle int64_t (MHz 14) (milliseconds 20) (Percent 536870911)
    = DutyCycle 70000 210000 /\
  70000 + 210000 = cycles_per (MHz 14) (milliseconds 20).
Proof.
  destruct (calculate_duty_cycle_split int64_t (MHz 14) (milliseconds 20)
              (Percent 536870911))
    as (Hsum & _ & _ & _).
  - reflexivity.
  - cbv. split; discriminate.
  - cbv. split; discriminate.
  - cbv. split; discriminate.
  - split; [reflexivity | exact Hsum].
Defined.

(** C8, refuted as stated: -100% is a valid percent and 100 cycles a
    non-negative total, yet [high] is negative. *)
Lemma calculate_duty_cycle_negative_high :
  let split := calculate_duty_cycle int64_t (Hz 100) (seconds 1) (Percent raw_min) in
  0 <= cycles_per (Hz 100) (seconds 1) /\
  raw_min <= raw_value (Percent raw_min) <= raw_max /\
  high split = -100 /\ low split = 200 /\ high split < 0.
Proof. cbv. repeat split; discriminate. Qed.

(** ** Floating-point assignment *)

(** *** Rounding of binary floats *)

Lemma digits2_pos_lt (p : positive) :
  Zpos p < 2 ^ Zpos (digits2_pos p).
Proof.
  induction p as [p IH | p IH |]; cbn [digits2_pos].
  - rewrite Pos2Z.inj_succ, Z.pow_succ_r by lia. lia.
  - rewrite Pos2Z.inj_succ, Z.pow_succ_r by lia. lia.
  - reflexivity.
Qed.

Lemma pow2_nonpos (k : Z) : k <= 0 -> 2 ^ k <= 1.
Proof.
  intros Hk. destruct k as [|q|q]; [reflexivity | lia | ].
  rewrite Z.pow_neg_r by lia. lia.
Qed.

Lemma digits2_pos_le (p : positive) (k : Z) :
  Zpos p < 2 ^ k -> Zpos (digits2_pos p) <= k.
Proof.
  revert k. induction p as [p IH | p IH |]; intros k Hk; cbn [digits2_pos].
  - assert (0 < k)
      by (destruct (Z.lt_ge_cases 0 k) as [|Hle]; [lia|];
          pose proof (pow2_nonpos k Hle); lia).
    rewrite (pow2_half k) in Hk by lia.
    specialize (IH (k - 1) ltac:(lia)). lia.
  - assert (0 < k)
      by (destruct (Z.lt_ge_cases 0 k) as [|Hle]; [lia|];
          pose proof (pow2_nonpos k Hle); lia).
    rewrite (pow2_half k) in Hk by lia.
    specialize (IH (k - 1) ltac:(lia)). lia.
  - destruct (Z.lt_ge_cases 0 k) as [|Hle]; [lia|].
    pose proof (pow2_nonpos k Hle). lia.
Qed.

Lemma Zdigits2_le (m k : Z) :
  0 <= m < 2 ^ k -> 0 <= k -> Zdigits2 m <= k.
Proof.
  intros Hm Hk. destruct m as [|p|p]; cbn [Zdigits2]; [lia | | lia].
  apply digits2_pos_le. lia.
Qed.

Lemma shr_1_halves (mrs : shr_record) :
  0 <= shr_m mrs ->
  0 <= shr_m (shr_1 mrs) /\ 2 * shr_m (shr_1 mrs) <= shr_m mrs.
Proof.
  destruct mrs as [m r s]. cbn [shr_m shr_1]. intros Hm.
  destruct m as [|[p|p|]|p]; cbn [shr_m]; lia.
Qed.

Lemma iter_shr_1 (p : positive) :
  forall mrs : shr_record,
    0 <= shr_m mrs ->
    0 <= shr_m (SpecFloat.iter_pos shr_1 p mrs) /\
    shr_m (SpecFloat.iter_pos shr_1 p mrs) * 2 ^ Zpos p <= shr_m mrs.
Proof.
  induction p as [p IH | p IH |]; intros mrs Hm; cbn [SpecFloat.iter_pos].
  - destruct (shr_1_halves mrs Hm) as [H0 H1].
    destruct (IH _ H0) as [H2 H3].
    destruct (IH _ H2) as [H4 H5].
    split; [exact H4|].
    replace (Zpos p~1) with (1 + Zpos p + Zpos p) by lia.
    rewrite !Z.pow_add_r by lia. change (2 ^ 1) with 2.
    pose proof (pow2_pos (Zpos p) ltac:(lia)). nia.
  - destruct (IH _ Hm) as [H2 H3].
    destruct (IH _ H2) as [H4 H5].
    split; [exact H4|].
    replace (Zpos p~0) with (Zpos p + Zpos p) by lia.
    rewrite !Z.pow_add_r by lia.
    pose proof (pow2_pos (Zpos p) ltac:(lia)). nia.
  - destruct (shr_1_halves mrs Hm) as [H0 H1].
    split; [exact H0|]. change (2 ^ 1) with 2. lia.
Qed.

Lemma shr_record_of_loc_m (m : Z) (l : location) :
  shr_m (shr_record_of_loc m l) = m.
Proof. destruct l as [|[]]; reflexivity. Qed.

Lemma shr_fexp_spec (prec emax m e : Z) (l : location)
    (mrs' : shr_record) (e' : Z) :
  0 <= m ->
  shr_fexp prec emax m e l = (mrs', e') ->
  0 <= shr_m mrs' /\
  e' = Z.max e (fexp prec emax (Zdigits2 m + e)) /\
  shr_m mrs' * 2 ^ (e' - e) <= m.
Proof.
  intros Hm. unfold shr_fexp, shr.
  pose proof (shr_record_of_loc_m m l) as Hrec.
  destruct (fexp prec emax (Zdigits2 m + e) - e) as [|p|p] eqn:Hn;
    intros [= <- <-].
  - rewrite Hrec, Z.sub_diag, Z.mul_1_r. lia.
  - destruct (iter_shr_1 p (shr_record_of_loc m l) ltac:(lia)) as [H0 H1].
    rewrite Hrec in H1.
    replace (e + Zpos p - e) with (Zpos p) by lia. lia.
  - rewrite Hrec, Z.sub_diag, Z.mul_1_r. lia.
Qed.

Lemma round_nearest_even_bounds (m : Z) (l : location) :
  m <= round_nearest_even m l <= m + 1.
Proof.
  unfold round_nearest_even.
  destruct l as [|[]]; try destruct (Z.even m); lia.
Qed.

Lemma fexp_double (x : Z) :
  fexp double_prec double_emax x = Z.max (x - 53) (-1074).
Proof. reflexivity. Qed.

Lemma pow2_split (a b : Z) : 0 <= a -> 0 <= b -> 2 ^ (a + b) = 2 ^ a * 2 ^ b.
Proof. intros. apply Z.pow_add_r; assumption. Qed.

(** A product that is below [2 ^ 31 - 1] before rounding is rounded to a
    value whose integral part is at most [2 ^ 31 - 1]. *)
Lemma binary_round_aux_below (sx : bool) (P : positive) (E : Z) :
  E < 0 -> Zpos P <= (2 ^ 31 - 1) * 2 ^ (- E) ->
  exists t,
    truncate (binary_round_aux double_prec double_emax sx (Zpos P) E loc_Exact)
      = Some t /\
    Z.abs t <= 2 ^ 31 - 1.
Proof.
  intros HE HP. unfold binary_round_aux.
  destruct (shr_fexp double_prec double_emax (Zpos P) E loc_Exact)
    as [mrs1 e1] eqn:H1.
  destruct (shr_fexp_spec _ _ (Zpos P) _ _ _ _ (Pos2Z.is_nonneg P) H1)
    as (Hm1 & He1 & Hv1).
  pose proof (round_nearest_even_bounds (shr_m mrs1) (loc_of_shr_record mrs1))
    as Hround.
  set (m1 := shr_m mrs1) in *.
  set (m1r := round_nearest_even m1 (loc_of_shr_record mrs1)) in *.
  destruct (shr_fexp double_prec double_emax m1r e1 loc_Exact)
    as [mrs2 e2] eqn:H2.
  assert (Hm1r : 0 <= m1r) by lia.
  destruct (shr_fexp_spec _ _ m1r _ _ _ _ Hm1r H2) as (Hm2 & He2 & Hv2).
  set (m2 := shr_m mrs2) in *.
  rewrite fexp_double in He1, He2.
  pose proof (pow2_pos (- E) ltac:(lia)) as HpE.
  assert (A1 : Zpos P < 2 ^ (31 - E)).
  { replace (31 - E) with (31 + - E) by lia.
    rewrite pow2_split by lia. lia. }
  pose proof (Zdigits2_le (Zpos P) (31 - E) ltac:(lia) ltac:(lia)) as A2.
  assert (A3 : E <= e1 <= -1) by lia.
  pose proof (pow2_pos (- e1) ltac:(lia)) as Hpe1.
  pose proof (pow2_pos (e1 - E) ltac:(lia)) as Hpd1.
  assert (A5 : m1 <= (2 ^ 31 - 1) * 2 ^ (- e1)).
  { apply (Z.mul_le_mono_pos_r _ _ (2 ^ (e1 - E))); [lia|].
    rewrite <- Z.mul_assoc, <- pow2_split by lia.
    replace (- e1 + (e1 - E)) with (- E) by lia. lia. }
  assert (A6 : 2 <= 2 ^ (- e1)).
  { change 2 with (2 ^ 1) at 1. apply Z.pow_le_mono_r; lia. }
  assert (A7 : 0 <= m1r < 2 ^ (31 - e1)).
  { replace (31 - e1) with (31 + - e1) by lia.
    rewrite pow2_split by lia. lia. }
  pose proof (Zdigits2_le m1r (31 - e1) A7 ltac:(lia)) as A8.
  assert (A9 : e1 <= e2 <= -1) by lia.
  pose proof (pow2_pos (- e2) ltac:(lia)) as Hpe2.
  pose proof (pow2_pos (e2 - e1) ltac:(lia)) as Hpd2.
  assert (A10 : m2 < 2 ^ 31 * 2 ^ (- e2)).
  { apply (Z.mul_lt_mono_pos_r (2 ^ (e2 - e1))); [lia|].
    rewrite <- Z.mul_assoc, <- pow2_split by lia.
    replace (- e2 + (e2 - e1)) with (- e1) by lia.
    replace (31 - e1) with (31 + - e1) in A7 by lia.
    rewrite pow2_split in A7 by lia. lia. }
  destruct m2 as [|m|m] eqn:Em2; [| |lia].
  - exists 0. split; [reflexivity | lia].
  - replace (e2 <=? double_emax - double_prec) with true
      by (symmetry; apply Z.leb_le; unfold double_emax, double_prec; lia).
    cbn [truncate].
    replace (0 <=? e2) with false by (symmetry; apply Z.leb_gt; lia).
    assert (Hq : 0 <= Zpos m / 2 ^ (- e2) < 2 ^ 31).
    { split; [apply Z.div_pos; lia|].
      apply Z.div_lt_upper_bound; lia. }
    eexists. split; [reflexivity|].
    destruct sx; lia.
Qed.

(** *** Assignment from a [double] *)

Lemma operator_assign_double (r : spec_float) :
  operator_assign double_prec double_emax r =
    match float_to_int int_t
            (SFmul double_prec double_emax
               (float_clamp r (SFopp double_one) double_one) double_raw_max)
    with
    | Some m_value => Some (Percent m_value)
    | None => None
    end.
Proof. reflexivity. Qed.

Lemma compare_cont_Eq (p q : positive) :
  PosDef.Pos.compare_cont Eq p q = Pos.compare p q.
Proof. reflexivity. Qed.

Lemma unit_interval_mantissa (s : bool) (m : positive) (e : Z) :
  bounded double_prec double_emax m e = true ->
  SFltb (S754_finite s m e) (SFopp double_one) = false ->
  SFltb double_one (S754_finite s m e) = false ->
  e <= -52 /\ Zpos m <= 2 ^ (- e).
Proof.
  unfold bounded, canonical_mantissa. rewrite andb_true_iff, Z.eqb_eq, fexp_double.
  intros [Hcanon _] Hlo Hhi.
  pose proof (digits2_pos_lt m) as Hdigits.
  assert (Hm53 : Zpos m < 2 ^ 53).
  { apply Z.lt_le_trans with (1 := Hdigits). apply Z.pow_le_mono_r; lia. }
  assert (Hcases : e < -52 \/ (e = -52 /\ Zpos m <= 2 ^ 52)).
  { change (2 ^ 52) with (Zpos 4503599627370496).
    unfold SFltb, SFcompare, SFopp, double_one in Hlo, Hhi.
    cbn [negb] in Hlo.
    rewrite compare_cont_Eq in Hlo, Hhi.
    destruct s.
    - clear Hhi. revert Hlo.
      destruct (Z.compare_spec e (-52)) as [-> | Hlt | Hgt]; intros Hlo.
      + right. split; [reflexivity|].
        apply Pos2Z.pos_le_pos, Pos.compare_le_iff.
        intros Hc. rewrite Hc in Hlo. discriminate Hlo.
      + left. exact Hlt.
      + discriminate Hlo.
    - clear Hlo. revert Hhi.
      destruct (Z.compare_spec (-52) e) as [<- | Hlt | Hgt]; intros Hhi.
      + right. split; [reflexivity|].
        apply Pos2Z.pos_le_pos, Pos.compare_ge_iff.
        intros Hc. rewrite Hc in Hhi. discriminate Hhi.
      + discriminate Hhi.
      + left. lia. }
  destruct Hcases as [Hlt | [-> Hle]].
  - split; [lia|].
    apply Z.le_trans with (2 ^ 53); [lia|]. apply Z.pow_le_mono_r; lia.
  - split; [lia | exact Hle].
Qed.

Lemma in_rangeb_int_t (t : Z) :
  Z.abs t <= 2 ^ 31 - 1 -> in_rangeb int_t t = true.
Proof.
  intros Ht. unfold in_rangeb. apply andb_true_iff.
  change (int_min int_t) with (-2147483648).
  change (int_max int_t) with 2147483647.
  change (2 ^ 31) with 2147483648 in Ht.
  split; apply Z.leb_le; lia.
Qed.

Lemma double_product_in_range (s : bool) (m : positive) (e : Z) :
  e <= -52 -> Zpos m <= 2 ^ (- e) ->
  exists t,
    float_to_int int_t
      (SFmul double_prec double_emax (S754_finite s m e) double_raw_max)
      = Some t /\
    raw_min <= t <= raw_max.
Proof.
  intros He Hm.
  unfold SFmul, double_raw_max, float_to_int.
  destruct (binary_round_aux_below (xorb s false)
              (m * 9007199250546688) (e + -22)) as (t & Ht & Hbound).
  - lia.
  - rewrite Pos2Z.inj_mul.
    replace (- (e + -22)) with (- e + 22) by lia.
    rewrite pow2_split by lia.
    change (Zpos 9007199250546688) with ((2 ^ 31 - 1) * 2 ^ 22).
    pose proof (pow2_pos (- e) ltac:(lia)).
    assert (0 < (2 ^ 31 - 1) * 2 ^ 22) by reflexivity.
    nia.
  - exists t. rewrite Ht, in_rangeb_int_t by exact Hbound.
    split; [reflexivity|].
    rewrite raw_min_value, raw_max_value.
    change (2 ^ 31) with 2147483648 in Hbound. lia.
Qed.

(** Assigning any double that is not a NaN stores a raw value within
    [raw_min, raw_max]. *)
Lemma operator_assign_double_range (r : spec_float) :
  valid_binary double_prec double_emax r = true ->
  is_nan r = false ->
  exists p,
    operator_assign double_prec double_emax r = Some p /\
    raw_min <= raw_value p <= raw_max.
Proof.
  intros Hvalid Hnan. rewrite operator_assign_double. unfold float_clamp.
  destruct (SFltb r (SFopp double_one)) eqn:Hlo;
    [| destruct (SFltb double_one r) eqn:Hhi].
  - exists (Percent (- raw_max)). split; [reflexivity|].
    cbv. split; discriminate.
  - exists (Percent raw_max). split; [reflexivity|].
    cbv. split; discriminate.
  - destruct r as [s | s | | s m e].
    + exists (Percent 0). split; [destruct s; reflexivity|].
      cbv. split; discriminate.
    + destruct s; discriminate.
    + discriminate.
    + destruct (unit_interval_mantissa s m e Hvalid Hlo Hhi) as [He Hm].
      destruct (double_product_in_range s m e He Hm) as (t & Ht & Hrange).
      exists (Percent t). rewrite Ht. split; [reflexivity | exact Hrange].
Qed.

(** A double outside [-1, 1] is stored as exactly -100% or +100%. *)
Lemma operator_assign_double_saturates (r : spec_float) :
  (SFltb r (SFopp double_one) = true ->
   operator_assign double_prec double_emax r = Some (Percent raw_min)) /\
  (SFltb double_one r = true ->
   operator_assign double_prec double_emax r = Some (Percent raw_max)).
Proof.
  rewrite operator_assign_double. unfold float_clamp.
  split; intros H.
  - rewrite H. reflexivity.
  - destruct (SFltb r (SFopp double_one)) eqn:Hlo.
    + destruct r as [s | s | | s m e]; try destruct s; discriminate.
    + rewrite H. reflexivity.
Qed.

(** ** The test suites and the invariant of the raw value *)

(** *** The test suites, replayed on the model *)

Lemma percent_signed_test_passes :
  Forall (fun '(BitWidth, value, expected) =>
            convert BitWidth int32_t value = Some (Percent expected))
    percent_signed_test.
Proof. repeat (constructor; [vm_compute; reflexivity|]). constructor. Qed.

Lemma percent_to_string_test_passes :
  Forall (fun '(billionth, expected) =>
            exists p,
              operator_assign double_prec double_emax
                (double_literal billionth 1000000000) = Some p /\
              visible (to_string p) = expected)
    percent_to_string_test_literals /\
  Forall (fun '(progress, maximum, expected) =>
            visible (to_string (from_ratio progress maximum)) = expected)
    percent_to_string_test_ratios.
Proof.
  split.
  - repeat (constructor;
              [eexists; split; [vm_compute; reflexivity | vm_compute; reflexivity]|]).
    constructor.
  - repeat (constructor; [vm_compute; reflexivity|]). constructor.
Qed.

Lemma frequency_duty_cycle_test_passes :
  Forall (fun '(hundredth, expected_high, expected_low) =>
            exists p,
              operator_assign double_prec double_emax
                (double_literal hundredth 100) = Some p /\
              calculate_duty_cycle int64_t (MHz 14) (milliseconds 20) p
                = DutyCycle expected_high expected_low)
    frequency_duty_cycle_test.
Proof.
  repeat (constructor;
            [eexists; split; [vm_compute; reflexivity | vm_compute; reflexivity]|]).
  constructor.
Qed.

(** *** The invariant of the raw value *)

Lemma from_ratio_range (p_progress p_maximum : Z) :
  raw_min <= raw_value (from_ratio p_progress p_maximum) <= raw_max.
Proof.
  unfold from_ratio, raw_value; cbn [m_value].
  match goal with |- _ <= static_cast _ (clamp ?v _ _) <= _ =>
    pose proof (clamp_range v raw_min raw_max ltac:(cbv; discriminate)) as Hc;
    set (c := clamp v raw_min raw_max) in *
  end.
  rewrite static_cast_in_range; [exact Hc | reflexivity |].
  apply in_range_int_t. rewrite raw_min_value, raw_max_value in Hc. lia.
Qed.

(** C1.  After default construction, after construction or assignment from
    a double that is not a NaN, and after [from_ratio] with a non-zero
    maximum, the raw value lies within [raw_min, raw_max].  [convert] stores
    the bit-scaled value as it is.  In an instantiation that passes the
    [static_assert]s and whose shift amount [width_difference] is not
    negative, and for an input within the [BitWidth]-bit range of its source
    type, that value is a value of [int_t] that is [INT32_MIN] exactly for
    the most negative input of a signed source, and within
    [raw_min, raw_max] otherwise.  An input outside the [BitWidth]-bit range
    is not covered: [convert<4>(-24)] stores [INT32_MIN] as well.  The
    scalar product returns an integer and stores nothing. *)
Theorem percent_raw_invariant :
  raw_min <= raw_value percent_default <= raw_max /\
  (forall r : spec_float,
     valid_binary double_prec double_emax r = true -> is_nan r = false ->
     exists p,
       percent_of_float double_prec double_emax r = Some p /\
       operator_assign double_prec double_emax r = Some p /\
       raw_min <= raw_value p <= raw_max) /\
  (forall p_progress p_maximum : Z,
     p_maximum <> 0 ->
     raw_min <= raw_value (from_ratio p_progress p_maximum) <= raw_max) /\
  (forall (BitWidth : Z) (U : int_type) (p_value : Z),
     upscale_asserts int_t BitWidth ->
     0 <= width_difference int_t U BitWidth ->
     source_range U BitWidth p_value ->
     exists p,
       convert BitWidth U p_value = Some p /\
       in_range int_t (raw_value p) /\
       (raw_value p < raw_min <->
        is_signed U = true /\ p_value = - 2 ^ (BitWidth - 1))) /\
  convert 4 int32_t (-24) = Some (Percent (int_min int_t)).
Proof.
  split; [cbv; split; discriminate|].
  split; [|split; [|split; [|reflexivity]]].
  - intros r Hvalid Hnan.
    destruct (operator_assign_double_range r Hvalid Hnan) as (p & Hp & Hr).
    exists p. auto.
  - intros p_progress p_maximum _. apply from_ratio_range.
  - intros BitWidth U p_value. apply convert_range.
Qed.

Lemma percent_raw_invariant_witness :
  (exists p,
     operator_assign double_prec double_emax (double_literal 25 100) = Some p /\
     raw_min <= raw_value p <= raw_max) /\
  raw_min <= raw_value (from_ratio 1 2) <= raw_max /\
  (exists p,
     convert 4 int32_t 7 = Some p /\ in_range int_t (raw_value p)).
Proof.
  destruct percent_raw_invariant as (_ & Hfloat & Hratio & Hconvert & _).
  split; [|split].
  - destruct (Hfloat (double_literal 25 100) eq_refl eq_refl)
      as (p & _ & Hp & Hr).
    exists p. auto.
  - apply Hratio. discriminate.
  - destruct (Hconvert 4 int32_t 7) as (p & Hp & Hr & _).
    + cbv. split; discriminate.
    + cbv. discriminate.
    + cbv. split; discriminate.
    + exists p. auto.
Defined.

(** C1, refuted as stated: [convert<4>(-8)] stores [INT32_MIN], the value
    [0b1000 << 28] that [percent_signed_test] expects. *)
Lemma convert_stores_int32_min :
  convert 4 int32_t (-8) = Some (Percent (int_min int_t)) /\
  In (4, -8, int_min int_t) percent_signed_test /\
  int_min int_t < raw_min.
Proof.
  split; [reflexivity|]. split; [|reflexivity].
  do 15 right. left. reflexivity.
Qed.

(** *** Single precision *)

(** C7.  In single precision [raw_max()] converts to [2 ^ 31]: assigning
    the [float] 1.0 (or anything above) multiplies out to [2 ^ 31], which no
    [int_t] holds, so the conversion that should store [raw_max] is
    undefined; the [float] -1.0 stores [INT32_MIN] instead of [raw_min].
    Were [raw_max()] converted to the [float] below it instead, 1.0 would
    store 2147483520, short of [raw_max] all the same.  A NaN of either
    precision passes the clamp and has no defined conversion either. *)
Theorem operator_assign_float_overflows :
  float_of_int float_prec float_emax raw_max
    = float_of_int float_prec float_emax (2 ^ 31) /\
  operator_assign float_prec float_emax (float_of_int float_prec float_emax 1)
    = None /\
  operator_assign float_prec float_emax (float_of_int float_prec float_emax 2)
    = None /\
  operator_assign float_prec float_emax (float_of_int float_prec float_emax (-1))
    = Some (Percent (int_min int_t)) /\
  (truncate float_below_raw_max = Some 2147483520 /\
   float_to_int int_t
     (SFmul float_prec float_emax (float_of_int float_prec float_emax 1)
        float_below_raw_max) = Some 2147483520 /\
   2147483520 < raw_max - 2) /\
  operator_assign float_prec float_emax S754_nan = None /\
  operator_assign double_prec double_emax S754_nan = None.
Proof. repeat split; reflexivity. Qed.

(** In double precision the saturation that C7 describes does hold: a
    double outside [-1, 1] is stored as -100% or +100%, which [to<float>]
    and [to<double>] give back as exactly -1 and 1. *)
Lemma operator_assign_double_clamps (r : spec_float) :
  SFltb r (SFopp double_one) = true \/ SFltb double_one r = true ->
  exists p,
    operator_assign double_prec double_emax r = Some p /\
    (raw_value p = raw_min \/ raw_value p = raw_max) /\
    to_float float_prec float_emax p =
      (if SFltb double_one r
       then float_of_int float_prec float_emax 1
       else float_of_int float_prec float_emax (-1)) /\
    to_float double_prec double_emax p =
      (if SFltb double_one r then double_one else SFopp double_one).
Proof.
  destruct (operator_assign_double_saturates r) as [Hlo Hhi].
  intros [H | H].
  - exists (Percent raw_min). rewrite (Hlo H).
    assert (Hnot : SFltb double_one r = false).
    { destruct r as [s | s | | s m e]; try destruct s; try reflexivity;
        discriminate. }
    rewrite Hnot. repeat split; auto.
  - exists (Percent raw_max). rewrite (Hhi H), H. repeat split; auto.
Qed.

(** ** Bit replication, ratios, products and text *)

(** *** The bits written by [upscale_integer] *)

Section Pattern.
Variable T : int_type.
Variables s f v : Z.
Hypothesis Hs : 1 <= s.
Hypothesis Hf : s <= f.
Hypothesis HT : 0 < bits T.
Hypothesis HfT : 2 ^ f - 1 <= int_max T.
Hypothesis Hv : 0 < v < 2 ^ s.

Local Abbreviation d := (f - s).

Lemma source_bits_above (k : Z) : s <= k -> Z.testbit v k = false.
Proof.
  intros Hk. apply Z.bits_above_log2; [lia|].
  apply Z.lt_le_trans with s; [|exact Hk].
  apply Z.log2_lt_pow2; lia.
Qed.

(** The shifted input holds the topmost copy. *)
Lemma shifted_pattern (j : Z) :
  0 <= j -> Z.testbit (v * 2 ^ d) j = (d <=? j) && replicated_bit s f v j.
Proof.
  intros Hj. unfold replicated_bit.
  rewrite Z.mul_pow2_bits by lia.
  destruct (Z.leb_spec d j) as [Hd | Hd]; cbn [andb].
  - destruct (Z.ltb_spec j f) as [Hjf | Hjf]; cbn [andb].
    + rewrite Z.mod_small by lia. reflexivity.
    + apply source_bits_above. lia.
  - apply Z.testbit_neg_r. lia.
Qed.

Lemma replicated_bit_period (j k : Z) :
  Z.testbit v ((j + k * s - d) mod s) = Z.testbit v ((j - d) mod s).
Proof.
  replace (j + k * s - d) with (j - d + k * s) by lia.
  rewrite Z.mod_add by lia. reflexivity.
Qed.

(** One pass of the loop body extends the window of copies downwards by
    the shift amount. *)
Lemma replicate_pattern_step (w k r : Z) :
  1 <= k -> w <= f - k * s -> 0 <= r < 2 ^ f ->
  (forall j, 0 <= j -> Z.testbit r j = (w <=? j) && replicated_bit s f v j) ->
  let r' := static_cast T (Z.lor r (Z.shiftr r (k * s))) in
  0 <= r' < 2 ^ f /\
  forall j, 0 <= j ->
    Z.testbit r' j = (w - k * s <=? j) && replicated_bit s f v j.
Proof.
  intros Hk Hw Hr Hbits r'. subst r'.
  assert (Hi : 1 <= k * s) by nia.
  assert (Hsh : 0 <= Z.shiftr r (k * s) < 2 ^ f)
    by (apply (shiftr_below s f Hs Hf); [lia | exact Hr]).
  assert (Hl : 0 <= Z.lor r (Z.shiftr r (k * s)) < 2 ^ f)
    by (apply (lor_below s f Hs Hf); [exact Hr | exact Hsh]).
  rewrite static_cast_in_range
    by (try (apply (in_range_below T f HT HfT)); assumption).
  split; [exact Hl|].
  intros j Hj.
  rewrite Z.lor_spec, Z.shiftr_spec, !Hbits by lia.
  unfold replicated_bit. rewrite replicated_bit_period.
  destruct (Z.testbit v ((j - d) mod s)); rewrite ?andb_false_r, ?andb_true_r.
  - destruct (Z.leb_spec w j), (Z.ltb_spec j f), (Z.leb_spec w (j + k * s)),
      (Z.ltb_spec (j + k * s) f), (Z.leb_spec (w - k * s) j);
      cbn [andb orb]; try reflexivity; lia.
  - reflexivity.
Qed.

Lemma replicate_bits_pattern (fuel : nat) :
  forall (w k r : Z),
    1 <= k -> w <= f - k * s -> f - k * s <= Z.of_nat fuel ->
    0 <= r < 2 ^ f ->
    (forall j, 0 <= j -> Z.testbit r j = (w <=? j) && replicated_bit s f v j) ->
    let r' := replicate_bits fuel T s f (k * s) r in
    0 <= r' < 2 ^ f /\
    forall j, 0 <= j -> Z.testbit r' j = replicated_bit s f v j.
Proof.
  induction fuel as [|fuel IH]; intros w k r Hk Hw Hfuel Hr Hbits;
    cbn [replicate_bits].
  - split; [exact Hr|]. intros j Hj. rewrite Hbits by lia.
    replace (w <=? j) with true by (symmetry; apply Z.leb_le; lia).
    reflexivity.
  - destruct (Z.ltb_spec (k * s) f) as [Hlt | Hge].
    + destruct (replicate_pattern_step w k r Hk Hw Hr Hbits) as [Hr' Hbits'].
      replace (k * s + s) with ((k + 1) * s) by lia.
      apply (IH (w - k * s) (k + 1)); [lia | nia | nia | exact Hr' | exact Hbits'].
    + split; [exact Hr|]. intros j Hj. rewrite Hbits by lia.
      replace (w <=? j) with true by (symmetry; apply Z.leb_le; lia).
      reflexivity.
Qed.

(** What the loop of [upscale_integer] leaves, started from the shifted
    input. *)
Lemma replicate_bits_result :
  let r := replicate_bits (Z.to_nat f) T s f s (v * 2 ^ d) in
  0 <= r < 2 ^ f /\
  forall j, 0 <= j -> Z.testbit r j = replicated_bit s f v j.
Proof.
  assert (H2 : 2 ^ f = 2 ^ s * 2 ^ d).
  { rewrite <- Z.pow_add_r by lia. f_equal. lia. }
  pose proof (pow2_pos d ltac:(lia)).
  pose proof (replicate_bits_pattern (Z.to_nat f) d 1 (v * 2 ^ d)
                ltac:(lia) ltac:(lia) ltac:(lia) ltac:(nia)
                (fun j Hj => shifted_pattern j Hj)) as Hloop.
  rewrite Z.mul_1_l in Hloop. exact Hloop.
Qed.
End Pattern.

Lemma source_range_positive (U : int_type) (SourceWidth v : Z) :
  source_range U SourceWidth v -> 0 < v ->
  0 < v < 2 ^ final_source_width U SourceWidth.
Proof.
  unfold source_range, in_range, int_max, final_source_width.
  cbn [bits is_signed]. destruct (is_signed U); lia.
Qed.

Section UpscaleBits.
Variables T U : int_type.
Variable SourceWidth : Z.
Hypothesis Hasserts : upscale_asserts T SourceWidth.
Hypothesis Hpromote : bits T <= bits (promote U).
Hypothesis Hsigned : is_signed U = true -> is_signed T = true.
Hypothesis Hshift : 0 <= width_difference T U SourceWidth.

Local Abbreviation s := (final_source_width U SourceWidth).
Local Abbreviation f := (final_width T).
Local Abbreviation d := (width_difference T U SourceWidth).

(** The loop of [upscale_integer] on a positive input. *)
Lemma upscale_integer_positive (v : Z) :
  source_range U SourceWidth v -> 0 < v ->
  upscale_integer T SourceWidth U v =
    Some (replicate_bits (Z.to_nat f) T s f s (v * 2 ^ (f - s))).
Proof.
  intros Hv Hpos.
  destruct (upscale_widths T U SourceWidth Hasserts Hsigned Hshift)
    as (Hs & Hf & HT & Hd).
  pose proof (source_range_positive U SourceWidth v Hv Hpos) as Hvs.
  assert (H2 : 2 ^ f = 2 ^ s * 2 ^ (f - s)).
  { rewrite <- Z.pow_add_r by lia. f_equal. lia. }
  pose proof (pow2_pos (f - s) ltac:(lia)) as Hpd.
  unfold upscale_integer.
  fold (final_source_width U SourceWidth) (final_width T).
  replace ((0 <=? f - s) && (f - s <? bits (promote U))) with true.
  2:{ symmetry. apply andb_true_iff. split; [apply Z.leb_le | apply Z.ltb_lt].
      - lia.
      - unfold final_width in *. destruct (is_signed T); lia. }
  rewrite static_cast_twice by lia.
  rewrite Z.shiftl_mul_pow2 by lia.
  rewrite (static_cast_in_range T (v * 2 ^ (f - s)));
    [| lia | apply (in_range_below T f HT (final_width_max T U Hsigned)); nia].
  replace (0 <? v) with true by (symmetry; apply Z.ltb_lt; lia).
  reflexivity.
Qed.

Lemma upscale_integer_bits (v : Z) :
  source_range U SourceWidth v -> 0 < v ->
  exists r,
    upscale_integer T SourceWidth U v = Some r /\
    0 <= r < 2 ^ f /\
    forall j, 0 <= j -> Z.testbit r j = replicated_bit s f v j.
Proof.
  intros Hv Hpos.
  destruct (upscale_widths T U SourceWidth Hasserts Hsigned Hshift)
    as (Hs & Hf & HT & Hd).
  eexists. split; [apply upscale_integer_positive; assumption|].
  apply replicate_bits_result;
    [exact Hs | exact Hf | exact HT | apply (final_width_max T U Hsigned)
    | apply source_range_positive; assumption].
Qed.

(** The result repeats itself [s] bits further down:
    [r = (v << d) + (r >> s)]. *)
Lemma upscale_integer_recurrence (v r : Z) :
  source_range U SourceWidth v -> 0 < v ->
  upscale_integer T SourceWidth U v = Some r ->
  r = v * 2 ^ (f - s) + r / 2 ^ s.
Proof.
  intros Hv Hpos Er.
  destruct (upscale_widths T U SourceWidth Hasserts Hsigned Hshift)
    as (Hs & Hf & HT & Hd).
  pose proof (source_range_positive U SourceWidth v Hv Hpos) as Hvs.
  destruct (upscale_integer_bits v Hv Hpos) as (r' & Er' & Hr & Hbits).
  rewrite Er in Er'. injection Er' as <-.
  rewrite <- Z.shiftr_div_pow2 by lia.
  assert (Hshifted : forall j, 0 <= j ->
            Z.testbit (Z.shiftr r s) j
            = (j <? f - s) && replicated_bit s f v j).
  { intros j Hj. rewrite Z.shiftr_spec, Hbits by lia.
    unfold replicated_bit.
    replace (j + s - (f - s)) with (j - (f - s) + 1 * s) by lia.
    rewrite Z.mod_add by lia.
    destruct (Z.ltb_spec (j + s) f), (Z.ltb_spec j (f - s)), (Z.ltb_spec j f);
      cbn [andb]; try reflexivity; lia. }
  rewrite Z.add_nocarry_lxor, Z.lxor_lor.
  - apply Z.bits_inj'. intros j Hj.
    rewrite Z.lor_spec, Hshifted, Hbits by lia.
    rewrite (shifted_pattern s f v Hf Hvs) by lia.
    unfold replicated_bit.
    destruct (Z.leb_spec (f - s) j), (Z.ltb_spec j (f - s)), (Z.ltb_spec j f),
      (Z.testbit v ((j - (f - s)) mod s)); cbn [andb orb]; try reflexivity; lia.
  - apply Z.bits_inj'. intros j Hj.
    rewrite Z.land_spec, Hshifted, Z.bits_0 by lia.
    rewrite (shifted_pattern s f v Hf Hvs) by lia.
    destruct (Z.leb_spec (f - s) j), (Z.ltb_spec j (f - s));
      cbn [andb]; try reflexivity; try lia.
  - apply Z.bits_inj'. intros j Hj.
    rewrite Z.land_spec, Hshifted, Z.bits_0 by lia.
    rewrite (shifted_pattern s f v Hf Hvs) by lia.
    destruct (Z.leb_spec (f - s) j), (Z.ltb_spec j (f - s));
      cbn [andb]; try reflexivity; try lia.
Qed.

(** The largest input gives the largest output. *)
Lemma upscale_integer_ones (r : Z) :
  upscale_integer T SourceWidth U (2 ^ s - 1) = Some r ->
  source_range U SourceWidth (2 ^ s - 1) ->
  r = 2 ^ f - 1.
Proof.
  intros Er Hv.
  destruct (upscale_widths T U SourceWidth Hasserts Hsigned Hshift)
    as (Hs & Hf & HT & Hd).
  assert (Hpos : 0 < 2 ^ s - 1).
  { assert (2 ^ 1 <= 2 ^ s) by (apply Z.pow_le_mono_r; lia). lia. }
  destruct (upscale_integer_bits _ Hv Hpos) as (r' & Er' & Hr & Hbits).
  rewrite Er in Er'. injection Er' as <-.
  assert (Es : 2 ^ s - 1 = Z.ones s) by (rewrite Z.ones_equiv; lia).
  assert (Ef : 2 ^ f - 1 = Z.ones f) by (rewrite Z.ones_equiv; lia).
  rewrite Ef. rewrite Es in Hbits.
  apply Z.bits_inj'. intros j Hj. rewrite Hbits by lia.
  unfold replicated_bit.
  destruct (Z.ltb_spec j f); cbn [andb].
  - pose proof (Z.mod_pos_bound (j - (f - s)) s ltac:(lia)).
    rewrite !Z.ones_spec_low by lia. reflexivity.
  - rewrite Z.ones_spec_high by lia. reflexivity.
Qed.
End UpscaleBits.



(** X2.  Round trip.  In an instantiation that passes the
    [static_assert]s, whose destination type is no wider than the promoted
    source type and is signed whenever the source type is, and whose shift
    amount [width_difference] is not negative, shifting the result of
    [upscale_integer] back down by [width_difference] gives the input
    again, for every input of the source width, negative ones included:
    the leading bits of the result are the input. *)
Theorem upscale_integer_round_trip (T U : int_type) (SourceWidth v : Z) :
  upscale_asserts T SourceWidth ->
  bits T <= bits (promote U) ->
  (is_signed U = true -> is_signed T = true) ->
  0 <= width_difference T U SourceWidth ->
  source_range U SourceWidth v ->
  exists r,
    upscale_integer T SourceWidth U v = Some r /\
    Z.shiftr r (width_difference T U SourceWidth) = v.
Proof.
  intros Hasserts Hpromote Hsigned Hshift Hv.
  destruct (upscale_integer_leading T U SourceWidth Hasserts Hpromote Hsigned
              Hshift v Hv) as (r & Er & Hr & _ & _).
  exists r. split; [exact Er|].
  pose proof (pow2_pos _ Hshift) as Hpd.
  rewrite Z.shiftr_div_pow2 by exact Hshift.
  symmetry.
  apply Z.div_unique_pos
    with (r := r - v * 2 ^ width_difference T U SourceWidth); lia.
Qed.

Lemma upscale_integer_round_trip_witness :
  exists r,
    upscale_integer int32_t 12 int16_t (-1000) = Some r /\
    Z.shiftr r (width_difference int32_t int16_t 12) = -1000.
Proof.
  apply upscale_integer_round_trip.
  - vm_compute. split; discriminate.
  - vm_compute. discriminate.
  - intros _. reflexivity.
  - vm_compute. discriminate.
  - vm_compute. split; discriminate.
Defined.

(** X3.  In an instantiation that passes the [static_assert]s, whose
    destination type is no wider than the promoted source type and is
    signed whenever the source type is, and whose shift amount
    [width_difference] is not negative, [upscale_integer] is strictly
    increasing on the inputs of the source width, hence injective: two
    different samples never scale to the same value. *)
Theorem upscale_integer_strictly_increasing (T U : int_type)
    (SourceWidth a b : Z) :
  upscale_asserts T SourceWidth ->
  bits T <= bits (promote U) ->
  (is_signed U = true -> is_signed T = true) ->
  0 <= width_difference T U SourceWidth ->
  source_range U SourceWidth a -> source_range U SourceWidth b ->
  a < b ->
  exists ra rb,
    upscale_integer T SourceWidth U a = Some ra /\
    upscale_integer T SourceWidth U b = Some rb /\
    ra < rb.
Proof.
  intros Hasserts Hpromote Hsigned Hshift Ha Hb Hab.
  destruct (upscale_integer_leading T U SourceWidth Hasserts Hpromote Hsigned
              Hshift a Ha) as (ra & Era & Hra & _ & _).
  destruct (upscale_integer_leading T U SourceWidth Hasserts Hpromote Hsigned
              Hshift b Hb) as (rb & Erb & Hrb & _ & _).
  exists ra, rb. repeat split; [assumption | assumption |].
  pose proof (pow2_pos _ Hshift). nia.
Qed.

Lemma upscale_integer_strictly_increasing_witness :
  exists ra rb,
    upscale_integer uint32_t 10 uint16_t 511 = Some ra /\
    upscale_integer uint32_t 10 uint16_t 512 = Some rb /\
    ra < rb.
Proof.
  apply upscale_integer_strictly_increasing.
  - vm_compute. split; discriminate.
  - vm_compute. discriminate.
  - intros H. discriminate H.
  - vm_compute. discriminate.
  - vm_compute. split; discriminate.
  - vm_compute. split; discriminate.
  - reflexivity.
Defined.

(** X4.  In an instantiation that passes the [static_assert]s, whose
    destination type is no wider than the promoted source type and is
    signed whenever the source type is, and whose shift amount
    [width_difference] is not negative, the ends of the range are kept:
    zero scales to zero, the largest value of the source width to the
    largest value of the destination type, and the most negative value of
    a signed source to the most negative value of the destination type. *)
Theorem upscale_integer_endpoints (T U : int_type) (SourceWidth : Z) :
  upscale_asserts T SourceWidth ->
  bits T <= bits (promote U) ->
  (is_signed U = true -> is_signed T = true) ->
  0 <= width_difference T U SourceWidth ->
  upscale_integer T SourceWidth U 0 = Some 0 /\
  upscale_integer T SourceWidth U (int_max (IntType SourceWidth (is_signed U)))
    = Some (int_max T) /\
  (is_signed U = true ->
   upscale_integer T SourceWidth U (int_min (IntType SourceWidth true))
     = Some (int_min T)).
Proof.
  intros Hasserts Hpromote Hsigned Hshift.
  destruct (upscale_widths T U SourceWidth Hasserts Hsigned Hshift)
    as (Hs & Hf & HT & Hd).
  pose proof (pow2_pos (final_source_width U SourceWidth) ltac:(lia)) as Hps.
  assert (Hmax : int_max (IntType SourceWidth (is_signed U))
                 = 2 ^ final_source_width U SourceWidth - 1).
  { unfold int_max, final_source_width. cbn [bits is_signed].
    destruct (is_signed U); reflexivity. }
  assert (HmaxT : int_max T = 2 ^ final_width T - 1).
  { unfold int_max, final_width. destruct (is_signed T); reflexivity. }
  split; [|split].
  - assert (H0 : source_range U SourceWidth 0).
    { unfold source_range, in_range. rewrite Hmax. split; [|lia].
      unfold int_min. cbn [bits is_signed].
      destruct (is_signed U); [|lia].
      pose proof (pow2_pos (SourceWidth - 1)
                    ltac:(destruct Hasserts; lia)). lia. }
    destruct (upscale_integer_leading T U SourceWidth Hasserts Hpromote
                Hsigned Hshift 0 H0) as (r & Er & _ & Hr & _).
    rewrite Er, Hr by lia. reflexivity.
  - assert (Hv : source_range U SourceWidth
                   (2 ^ final_source_width U SourceWidth - 1)).
    { unfold source_range, in_range. rewrite Hmax. split; [|lia].
      unfold int_min. cbn [bits is_signed].
      destruct (is_signed U); [|lia].
      pose proof (pow2_pos (SourceWidth - 1)
                    ltac:(destruct Hasserts; lia)). lia. }
    rewrite Hmax, HmaxT.
    destruct (upscale_integer_leading T U SourceWidth Hasserts Hpromote
                Hsigned Hshift _ Hv) as (r & Er & _).
    rewrite Er. f_equal.
    apply (upscale_integer_ones T U SourceWidth Hasserts Hpromote Hsigned
             Hshift r Er Hv).
  - intros HU. pose proof (Hsigned HU) as HTs.
    assert (Hv : source_range U SourceWidth (int_min (IntType SourceWidth true))).
    { unfold source_range, in_range. rewrite HU.
      unfold int_min, int_max. cbn [bits is_signed].
      pose proof (pow2_pos (SourceWidth - 1)
                    ltac:(destruct Hasserts; lia)). lia. }
    destruct (upscale_integer_leading T U SourceWidth Hasserts Hpromote
                Hsigned Hshift _ Hv) as (r & Er & _ & Hr & _).
    rewrite Er, Hr.
    + f_equal. unfold int_min. rewrite HTs. cbn [bits is_signed].
      rewrite Hd. unfold final_width, final_source_width.
      rewrite HU, HTs.
      rewrite Z.mul_opp_l, <- Z.pow_add_r.
      * do 2 f_equal. lia.
      * destruct Hasserts; lia.
      * unfold final_width, final_source_width in Hf.
        rewrite HU, HTs in Hf. lia.
    + unfold int_min. cbn [bits is_signed].
      pose proof (pow2_pos (SourceWidth - 1)
                    ltac:(destruct Hasserts; lia)). lia.
Qed.

Lemma upscale_integer_endpoints_witness :
  upscale_integer int32_t 8 int8_t 0 = Some 0 /\
  upscale_integer int32_t 8 int8_t (int_max (IntType 8 (is_signed int8_t)))
    = Some (int_max int32_t) /\
  (is_signed int8_t = true ->
   upscale_integer int32_t 8 int8_t (int_min (IntType 8 true))
     = Some (int_min int32_t)).
Proof.
  apply upscale_integer_endpoints.
  - vm_compute. split; discriminate.
  - vm_compute. discriminate.
  - intros _. reflexivity.
  - vm_compute. discriminate.
Defined.

(** X5.  Replication is proportional scaling.  In an instantiation that
    passes the [static_assert]s, whose destination type is no wider than
    the promoted source type and is signed whenever the source type is,
    and whose shift amount [width_difference] is not negative, with [s]
    source bits and [f] destination bits, the result [r] of a positive
    input [v] of the source width satisfies
    [r * (2^s - 1) + r mod 2^s = v * 2^f], and so lies less than one unit
    away from [v * (2^f - 1) / (2^s - 1)], the value that keeps the ratio
    to full scale. *)
Theorem upscale_integer_proportional (T U : int_type) (SourceWidth v : Z) :
  upscale_asserts T SourceWidth ->
  bits T <= bits (promote U) ->
  (is_signed U = true -> is_signed T = true) ->
  0 <= width_difference T U SourceWidth ->
  source_range U SourceWidth v -> 0 < v ->
  let s := final_source_width U SourceWidth in
  let f := final_width T in
  exists r,
    upscale_integer T SourceWidth U v = Some r /\
    r * (2 ^ s - 1) + r mod 2 ^ s = v * 2 ^ f /\
    Z.abs (r * (2 ^ s - 1) - v * (2 ^ f - 1)) < 2 ^ s - 1.
Proof.
  intros Hasserts Hpromote Hsigned Hshift Hv Hpos s f.
  destruct (upscale_widths T U SourceWidth Hasserts Hsigned Hshift)
    as (Hs & Hf & HT & Hd).
  fold s f in Hs, Hf, Hd.
  pose proof (source_range_positive U SourceWidth v Hv Hpos) as Hvs.
  fold s in Hvs.
  destruct (upscale_integer_bits T U SourceWidth Hasserts Hpromote Hsigned
              Hshift v Hv Hpos) as (r & Er & Hr & _).
  fold f in Hr.
  pose proof (upscale_integer_recurrence T U SourceWidth Hasserts Hpromote
                Hsigned Hshift v r Hv Hpos Er) as Hrec.
  fold s f in Hrec.
  exists r. split; [exact Er|].
  assert (H2 : 2 ^ f = 2 ^ s * 2 ^ (f - s)).
  { rewrite <- Z.pow_add_r by lia. f_equal. lia. }
  pose proof (pow2_pos s ltac:(lia)) as Hps.
  pose proof (pow2_pos (f - s) ltac:(lia)) as Hpd.
  pose proof (Z.div_mod r (2 ^ s) ltac:(lia)) as Hdm.
  pose proof (Z.mod_pos_bound r (2 ^ s) ltac:(lia)) as Hmod.
  assert (Hid : r * (2 ^ s - 1) + r mod 2 ^ s = v * 2 ^ f).
  { rewrite H2.
    set (A := 2 ^ s) in *. set (D := 2 ^ (f - s)) in *.
    set (q := r / A) in *. set (t := r mod A) in *.
    assert (r * A = v * D * A + q * A) by (rewrite Hrec at 1; ring).
    lia. }
  split; [exact Hid|].
  destruct (Z.eq_dec v (2 ^ s - 1)) as [-> | Hne].
  - pose proof (upscale_integer_ones T U SourceWidth Hasserts Hpromote
                  Hsigned Hshift r Er Hv) as ->.
    fold f. replace ((2 ^ f - 1) * (2 ^ s - 1) - (2 ^ s - 1) * (2 ^ f - 1))
      with 0 by ring.
    cbn [Z.abs]. assert (2 ^ 1 <= 2 ^ s) by (apply Z.pow_le_mono_r; lia). lia.
  - lia.
Qed.

Lemma upscale_integer_proportional_witness :
  let s := final_source_width uint8_t 8 in
  let f := final_width uint32_t in
  exists r,
    upscale_integer uint32_t 8 uint8_t 127 = Some r /\
    r * (2 ^ s - 1) + r mod 2 ^ s = 127 * 2 ^ f /\
    Z.abs (r * (2 ^ s - 1) - 127 * (2 ^ f - 1)) < 2 ^ s - 1.
Proof.
  apply upscale_integer_proportional.
  - vm_compute. split; discriminate.
  - vm_compute. discriminate.
  - intros H. discriminate H.
  - vm_compute. discriminate.
  - vm_compute. split; discriminate.
  - reflexivity.
Defined.

(** X6.  [convert] keeps the order of the samples: the three-way
    comparison of two converted percents is the comparison of the two
    inputs. *)
Theorem convert_preserves_order (BitWidth : Z) (U : int_type) (a b : Z) :
  upscale_asserts int_t BitWidth ->
  0 <= width_difference int_t U BitWidth ->
  source_range U BitWidth a -> source_range U BitWidth b ->
  exists pa pb,
    convert BitWidth U a = Some pa /\
    convert BitWidth U b = Some pb /\
    operator_spaceship pa pb = (a ?= b).
Proof.
  intros Hasserts Hshift Ha Hb.
  destruct (upscale_integer_leading int_t U BitWidth Hasserts
              (promote_bits U) (fun _ => eq_refl) Hshift a Ha)
    as (ra & Era & Hra & _ & _).
  destruct (upscale_integer_leading int_t U BitWidth Hasserts
              (promote_bits U) (fun _ => eq_refl) Hshift b Hb)
    as (rb & Erb & Hrb & _ & _).
  unfold convert. rewrite Era, Erb.
  exists (Percent ra), (Percent rb). repeat split.
  unfold operator_spaceship. cbn [m_value].
  pose proof (pow2_pos _ Hshift) as Hpd.
  destruct (Z.compare_spec a b) as [-> | Hlt | Hgt].
  - rewrite Era in Erb. injection Erb as ->. apply Z.compare_refl.
  - apply Z.compare_lt_iff. nia.
  - apply Z.compare_gt_iff. nia.
Qed.

Lemma convert_preserves_order_witness :
  exists pa pb,
    convert 10 uint16_t 700 = Some pa /\
    convert 10 uint16_t 300 = Some pb /\
    operator_spaceship pa pb = (700 ?= 300).
Proof.
  apply convert_preserves_order.
  - vm_compute. split; discriminate.
  - vm_compute. discriminate.
  - vm_compute. split; discriminate.
  - vm_compute. split; discriminate.
Defined.

(** X7.  Among the instantiations that pass the two [static_assert]s,
    [convert] has no defined result exactly when the source type is
    unsigned and [BitWidth] is 32: [width_difference], an unsigned
    [31 - 32], is then no valid shift amount, whatever the input. *)
Theorem convert_defined (BitWidth : Z) (U : int_type) (p_value : Z) :
  upscale_asserts int_t BitWidth ->
  (convert BitWidth U p_value = None <->
   is_signed U = false /\ BitWidth = 32).
Proof.
  intros [Hw1 Hw2]. cbn [bits int_t int32_t] in Hw1.
  pose proof (promote_bits U) as Hp.
  unfold convert, upscale_integer. cbn [bits is_signed int_t int32_t].
  destruct (is_signed U).
  - replace ((0 <=? 32 - 1 - (BitWidth - 1))
             && (32 - 1 - (BitWidth - 1) <? bits (promote U))) with true.
    + split; [|intros [? _]; discriminate].
      destruct (0 <? p_value); discriminate.
    + symmetry. apply andb_true_iff.
      split; [apply Z.leb_le | apply Z.ltb_lt]; lia.
  - destruct (Z.eq_dec BitWidth 32) as [-> | Hne].
    + cbn. split; [auto | reflexivity].
    + replace ((0 <=? 32 - 1 - BitWidth)
               && (32 - 1 - BitWidth <? bits (promote U))) with true.
      * split; [|intros [_ ?]; contradiction].
        destruct (0 <? p_value); discriminate.
      * symmetry. apply andb_true_iff.
        split; [apply Z.leb_le | apply Z.ltb_lt]; lia.
Qed.

Lemma convert_defined_witness :
  convert 32 uint32_t 5 = None <-> is_signed uint32_t = false /\ 32 = 32.
Proof.
  apply convert_defined. vm_compute. split; discriminate.
Defined.

(** *** [from_ratio] *)

(** The value [from_ratio] stores, for operands of at most 32 bits. *)
Lemma from_ratio_raw (p_progress p_maximum : Z) :
  - 2 ^ 31 <= p_progress <= 2 ^ 32 - 1 -> p_maximum <> 0 ->
  from_ratio p_progress p_maximum =
    Percent (clamp (Z.quot (p_progress * raw_max) (Z.abs p_maximum))
               raw_min raw_max).
Proof.
  intros Hp Hm.
  change (2 ^ 31) with 2147483648 in Hp.
  change (2 ^ 32) with 4294967296 in Hp.
  unfold from_ratio, absolute_value.
  rewrite (in_range_overflow_t p_progress)
    by (change (2 ^ 63) with 9223372036854775808; lia).
  rewrite (in_range_overflow_t (p_progress * raw_max))
    by (rewrite raw_max_value; change (2 ^ 63) with 9223372036854775808; lia).
  pose proof (quot_abs_le (p_progress * raw_max) (Z.abs p_maximum)
                ltac:(lia)) as Hq.
  rewrite raw_max_value in *.
  rewrite in_range_overflow_t
    by (change (2 ^ 63) with 9223372036854775808; lia).
  f_equal. apply static_cast_in_range; [reflexivity|].
  apply in_range_int_t.
  pose proof (clamp_range
                (Z.quot (p_progress * 2147483647) (Z.abs p_maximum))
                raw_min 2147483647 ltac:(cbv; discriminate)) as Hc.
  rewrite raw_min_value in *. lia.
Qed.

Lemma clamp_opp (v R : Z) : 0 <= R -> clamp (- v) (- R) R = - clamp v (- R) R.
Proof.
  intros HR. unfold clamp.
  destruct (Z.ltb_spec (- v) (- R)), (Z.ltb_spec R (- v)),
    (Z.ltb_spec v (- R)), (Z.ltb_spec R v); lia.
Qed.

Lemma clamp_monotonic (a b lo hi : Z) :
  lo <= hi -> a <= b -> clamp a lo hi <= clamp b lo hi.
Proof.
  intros Hlh Hab. unfold clamp.
  destruct (Z.ltb_spec a lo), (Z.ltb_spec hi a),
    (Z.ltb_spec b lo), (Z.ltb_spec hi b); lia.
Qed.

(** X8.  [from_ratio] depends on the ratio only: multiplying both
    operands by the same positive factor gives the same percent, as long
    as the operands stay 32-bit values. *)
Theorem from_ratio_scale_invariant (k p_progress p_maximum : Z) :
  0 < k ->
  - 2 ^ 31 <= p_progress <= 2 ^ 32 - 1 ->
  - 2 ^ 31 <= k * p_progress <= 2 ^ 32 - 1 ->
  p_maximum <> 0 ->
  from_ratio (k * p_progress) (k * p_maximum) = from_ratio p_progress p_maximum.
Proof.
  intros Hk Hp Hkp Hm.
  rewrite !from_ratio_raw by (try assumption; nia).
  rewrite Z.abs_mul, (Z.abs_eq k), <- Z.mul_assoc by lia.
  rewrite Z.quot_mul_cancel_l by lia.
  reflexivity.
Qed.

Lemma from_ratio_scale_invariant_witness :
  from_ratio (50 * 5) (50 * 10) = from_ratio 5 10.
Proof.
  apply (from_ratio_scale_invariant 50 5 10).
  - reflexivity.
  - vm_compute. split; discriminate.
  - vm_compute. split; discriminate.
  - discriminate.
Defined.

(** X9.  [from_ratio] is odd in the progress and even in the maximum:
    negating the progress negates the raw value, and the sign of the
    maximum does not matter. *)
Theorem from_ratio_signs (p_progress p_maximum : Z) :
  - 2 ^ 31 <= p_progress <= 2 ^ 32 - 1 ->
  - 2 ^ 31 <= - p_progress <= 2 ^ 32 - 1 ->
  p_maximum <> 0 ->
  raw_value (from_ratio (- p_progress) p_maximum)
    = - raw_value (from_ratio p_progress p_maximum) /\
  from_ratio p_progress (- p_maximum) = from_ratio p_progress p_maximum.
Proof.
  intros Hp Hn Hm.
  rewrite !from_ratio_raw by (try assumption; lia).
  cbn [raw_value m_value]. split.
  - rewrite Z.mul_opp_l, Z.quot_opp_l by lia.
    apply (clamp_opp _ raw_max). rewrite raw_max_value. lia.
  - rewrite Z.abs_opp. reflexivity.
Qed.

Lemma from_ratio_signs_witness :
  raw_value (from_ratio (Z.opp 35) 250) = - raw_value (from_ratio 35 250) /\
  from_ratio 35 (Z.opp 250) = from_ratio 35 250.
Proof.
  apply (from_ratio_signs 35 250).
  - vm_compute. split; discriminate.
  - vm_compute. split; discriminate.
  - discriminate.
Defined.

(** X10.  Saturation.  [from_ratio] gives exactly 100% when the progress
    is at least the magnitude of the maximum and only then, and exactly
    -100% when the progress is at most minus that magnitude and only
    then. *)
Theorem from_ratio_saturation (p_progress p_maximum : Z) :
  - 2 ^ 31 <= p_progress <= 2 ^ 32 - 1 ->
  p_maximum <> 0 ->
  (raw_value (from_ratio p_progress p_maximum) = raw_max
   <-> Z.abs p_maximum <= p_progress) /\
  (raw_value (from_ratio p_progress p_maximum) = raw_min
   <-> p_progress <= - Z.abs p_maximum).
Proof.
  intros Hp Hm.
  rewrite from_ratio_raw by assumption. cbn [raw_value m_value].
  rewrite raw_min_value, raw_max_value.
  set (m := Z.abs p_maximum). assert (Hmpos : 0 < m) by (subst m; lia).
  set (q := Z.quot (p_progress * 2147483647) m).
  assert (Hq : (m <= p_progress -> 2147483647 <= q) /\
               (0 <= p_progress < m -> 0 <= q < 2147483647) /\
               (- m < p_progress <= 0 -> - 2147483647 < q <= 0) /\
               (p_progress <= - m -> q <= - 2147483647)).
  { subst q. repeat split.
    - intros H. apply Z.quot_le_lower_bound; [lia | nia].
    - apply Z.quot_pos; lia.
    - apply Z.quot_lt_upper_bound; [lia | lia | nia].
    - replace (p_progress * 2147483647)
        with (- (- p_progress * 2147483647)) by ring.
      rewrite Z.quot_opp_l by lia.
      assert (- p_progress * 2147483647 ÷ m < 2147483647)
        by (apply Z.quot_lt_upper_bound; [lia | lia | nia]).
      lia.
    - replace (p_progress * 2147483647)
        with (- (- p_progress * 2147483647)) by ring.
      rewrite Z.quot_opp_l by lia.
      assert (0 <= - p_progress * 2147483647 ÷ m)
        by (apply Z.quot_pos; lia).
      lia.
    - intros H.
      replace (p_progress * 2147483647)
        with (- (- p_progress * 2147483647)) by ring.
      rewrite Z.quot_opp_l by lia.
      assert (2147483647 <= - p_progress * 2147483647 ÷ m)
        by (apply Z.quot_le_lower_bound; [lia | nia]).
      lia. }
  destruct Hq as (H1 & H2 & H3 & H4).
  unfold clamp.
  destruct (Z.ltb_spec q (-2147483647)), (Z.ltb_spec 2147483647 q); lia.
Qed.

Lemma from_ratio_saturation_witness :
  (raw_value (from_ratio 500 (- 500)) = raw_max <-> Z.abs (- 500) <= 500) /\
  (raw_value (from_ratio 500 (- 500)) = raw_min <-> 500 <= - Z.abs (- 500)).
Proof.
  apply (from_ratio_saturation 500 (- 500)).
  - vm_compute. split; discriminate.
  - discriminate.
Defined.

(** X11.  For a fixed non-zero maximum, [from_ratio] is monotonic in a
    progress of at most 32 bits (from [- 2^31] to [2^32 - 1]): more
    progress never compares less, in the order of [operator<=>]. *)
Theorem from_ratio_monotonic (a b p_maximum : Z) :
  - 2 ^ 31 <= a <= 2 ^ 32 - 1 ->
  - 2 ^ 31 <= b <= 2 ^ 32 - 1 ->
  p_maximum <> 0 ->
  a <= b ->
  operator_le (from_ratio a p_maximum) (from_ratio b p_maximum) = true.
Proof.
  intros Ha Hb Hm Hab.
  rewrite !from_ratio_raw by assumption.
  unfold operator_le, operator_spaceship. cbn [m_value].
  assert (Hle : clamp (Z.quot (a * raw_max) (Z.abs p_maximum)) raw_min raw_max
                <= clamp (Z.quot (b * raw_max) (Z.abs p_maximum))
                     raw_min raw_max).
  { apply clamp_monotonic; [cbv; discriminate|].
    apply Z.quot_le_mono; [lia|]. rewrite raw_max_value. lia. }
  destruct (Z.compare_spec
              (clamp (Z.quot (a * raw_max) (Z.abs p_maximum)) raw_min raw_max)
              (clamp (Z.quot (b * raw_max) (Z.abs p_maximum)) raw_min raw_max));
    [reflexivity | reflexivity | lia].
Qed.

Lemma from_ratio_monotonic_witness :
  operator_le (from_ratio 33 100) (from_ratio 46 100) = true.
Proof.
  apply (from_ratio_monotonic 33 46 100).
  - vm_compute. split; discriminate.
  - vm_compute. split; discriminate.
  - discriminate.
  - discriminate.
Defined.

(** X12.  Accuracy.  For a progress of at most 32 bits (from [- 2^31] to
    [2^32 - 1]) that does not exceed the non-zero maximum in magnitude,
    the raw value [r] that [from_ratio] stores has the sign of the
    progress and is the ratio truncated toward zero:
    [|r| * |maximum| <= |progress| * raw_max < (|r| + 1) * |maximum|]. *)
Theorem from_ratio_truncates (p_progress p_maximum : Z) :
  - 2 ^ 31 <= p_progress <= 2 ^ 32 - 1 ->
  p_maximum <> 0 ->
  Z.abs p_progress <= Z.abs p_maximum ->
  let r := raw_value (from_ratio p_progress p_maximum) in
  0 <= r * p_progress /\
  Z.abs r * Z.abs p_maximum <= Z.abs p_progress * raw_max
    < (Z.abs r + 1) * Z.abs p_maximum.
Proof.
  intros Hp Hm Hle r. subst r.
  rewrite from_ratio_raw by assumption. cbn [raw_value m_value].
  rewrite raw_min_value, raw_max_value.
  set (m := Z.abs p_maximum) in *. assert (Hmpos : 0 < m) by (subst m; lia).
  set (q := Z.quot (p_progress * 2147483647) m).
  assert (Habs : Z.abs q = Z.abs p_progress * 2147483647 / m).
  { subst q. rewrite <- Z.quot_abs by lia.
    rewrite Z.abs_mul, (Z.abs_eq 2147483647), (Z.abs_eq m) by lia.
    apply Z.quot_div_nonneg; lia. }
  assert (Hsign : 0 <= q * p_progress).
  { subst q. destruct (Z.neg_nonneg_cases p_progress) as [Hneg | Hpos].
    - replace (p_progress * 2147483647)
        with (- (- p_progress * 2147483647)) by ring.
      rewrite Z.quot_opp_l by lia.
      pose proof (Z.quot_pos (- p_progress * 2147483647) m
                    ltac:(lia) Hmpos). nia.
    - pose proof (Z.quot_pos (p_progress * 2147483647) m
                    ltac:(lia) Hmpos). nia. }
  pose proof (Z.mul_div_le (Z.abs p_progress * 2147483647) m Hmpos) as Hlow.
  pose proof (Z.mul_succ_div_gt (Z.abs p_progress * 2147483647) m Hmpos)
    as Hhigh.
  rewrite <- Habs in Hlow, Hhigh.
  assert (Hbound : Z.abs q <= 2147483647).
  { rewrite Habs. apply Z.div_le_upper_bound; [lia | nia]. }
  unfold clamp.
  destruct (Z.ltb_spec q (-2147483647)); [lia|].
  destruct (Z.ltb_spec 2147483647 q); [lia|].
  split; [exact Hsign | lia].
Qed.

Lemma from_ratio_truncates_witness :
  let r := raw_value (from_ratio (- 2) 3) in
  0 <= r * (- 2) /\
  Z.abs r * Z.abs 3 <= Z.abs (- 2) * raw_max < (Z.abs r + 1) * Z.abs 3.
Proof.
  apply (from_ratio_truncates (- 2) 3).
  - vm_compute. split; discriminate.
  - discriminate.
  - vm_compute. discriminate.
Defined.

(** *** The scalar product *)

Lemma round_half_away_opp_l (n d : Z) :
  round_half_away (- n) d = - round_half_away n d.
Proof.
  unfold round_half_away. rewrite Z.sgn_opp, Z.abs_opp. ring.
Qed.

Lemma round_half_away_multiple (v d : Z) :
  0 < d -> round_half_away (v * d) d = v.
Proof.
  intros Hd. unfold round_half_away.
  rewrite Z.sgn_mul, Z.abs_mul, (Z.sgn_pos d), (Z.abs_eq d) by lia.
  replace ((2 * (Z.abs v * d) + d) / (2 * d)) with (Z.abs v).
  - pose proof (Z.abs_sgn v). lia.
  - apply Z.div_unique_pos with (r := d); lia.
Qed.

Lemma round_half_away_monotonic (a b d : Z) :
  0 < d -> a <= b -> round_half_away a d <= round_half_away b d.
Proof.
  intros Hd Hab. unfold round_half_away.
  rewrite (Z.sgn_pos d), (Z.abs_eq d) by lia.
  assert (Ha : 0 <= (2 * Z.abs a + d) / (2 * d)) by (apply Z.div_pos; lia).
  assert (Hb : 0 <= (2 * Z.abs b + d) / (2 * d)) by (apply Z.div_pos; lia).
  destruct (Z.neg_nonneg_cases a) as [Han | Hap];
    destruct (Z.neg_nonneg_cases b) as [Hbn | Hbp].
  - rewrite !Z.sgn_neg by lia.
    assert ((2 * Z.abs b + d) / (2 * d) <= (2 * Z.abs a + d) / (2 * d))
      by (apply Z.div_le_mono; lia).
    lia.
  - rewrite (Z.sgn_neg a) by lia.
    destruct (Z.eq_dec b 0) as [-> | Hb0].
    + cbn [Z.sgn]. lia.
    + rewrite (Z.sgn_pos b) by lia. lia.
  - lia.
  - assert ((2 * Z.abs a + d) / (2 * d) <= (2 * Z.abs b + d) / (2 * d))
      by (apply Z.div_le_mono; lia).
    destruct (Z.eq_dec a 0) as [-> | Ha0].
    + cbn [Z.sgn]. destruct (Z.eq_dec b 0) as [-> | Hb0].
      * cbn [Z.sgn]. lia.
      * rewrite (Z.sgn_pos b) by lia. lia.
    + rewrite (Z.sgn_pos a), (Z.sgn_pos b) by lia. lia.
Qed.

(** A value scaled by a percent keeps the side of zero it is on when the
    percent is not negative, and never grows. *)
Lemma round_half_away_between (v raw d : Z) :
  0 < d -> 0 <= raw <= d ->
  (0 <= v -> 0 <= round_half_away (v * raw) d <= v) /\
  (v <= 0 -> v <= round_half_away (v * raw) d <= 0).
Proof.
  intros Hd Hr.
  pose proof (round_half_away_scaled v raw d Hd ltac:(lia)) as Habs.
  split; intros Hv.
  - pose proof (round_half_away_nonneg (v * raw) d ltac:(nia) Hd). lia.
  - pose proof (round_half_away_nonneg (- (v * raw)) d ltac:(nia) Hd) as H.
    rewrite round_half_away_opp_l in H. lia.
Qed.

Lemma in_range_between (T : int_type) (v x : Z) :
  0 < bits T -> in_range T v ->
  (0 <= v -> 0 <= x <= v) -> (v <= 0 -> v <= x <= 0) ->
  in_range T x.
Proof.
  unfold in_range, int_min, int_max. intros Hb Hv Hp Hn.
  pose proof (pow2_pos (bits T - 1) ltac:(lia)).
  pose proof (pow2_pos (bits T) ltac:(lia)).
  destruct (is_signed T); lia.
Qed.

(** The product with a percent that is not negative, before and after the
    conversion to [T]. *)
Lemma operator_mul_nonneg_percent (T : int_type) (v : Z) (p : percent) :
  0 < bits T <= 32 -> in_range T v -> 0 <= raw_value p <= raw_max ->
  operator_mul T v p = round_half_away (v * raw_value p) raw_max.
Proof.
  intros Hb Hv Hr.
  rewrite operator_mul_unfold;
    [| apply (in_range_narrow T); assumption
     | apply in_range_int_t; rewrite raw_max_value in Hr; lia].
  apply static_cast_in_range; [lia|].
  destruct (round_half_away_between v (raw_value p) raw_max
              ltac:(reflexivity) Hr) as [Hp Hn].
  apply (in_range_between T v); [lia | exact Hv | exact Hp | exact Hn].
Qed.

(** X13.  The fixed points of the scale: 100% leaves every value of the
    type unchanged, 0% gives 0, and -100% gives the negated value when the
    type holds it. *)
Theorem operator_mul_full_scale (T : int_type) (p_value : Z) :
  0 < bits T <= 32 -> in_range T p_value ->
  operator_mul T p_value (Percent raw_max) = p_value /\
  operator_mul T p_value (Percent raw_zero) = 0 /\
  (in_range T (- p_value) ->
   operator_mul T p_value (Percent raw_min) = - p_value).
Proof.
  intros Hb Hv.
  pose proof (in_range_narrow T p_value Hb Hv) as Hn.
  split; [|split].
  - rewrite operator_mul_unfold; [| exact Hn | cbv; split; discriminate].
    cbn [raw_value m_value].
    rewrite round_half_away_multiple by reflexivity.
    apply static_cast_in_range; [lia | exact Hv].
  - rewrite operator_mul_unfold; [| exact Hn | cbv; split; discriminate].
    cbn [raw_value m_value]. unfold raw_zero. rewrite Z.mul_0_r.
    unfold round_half_away. cbn [Z.sgn Z.mul].
    apply static_cast_in_range; [lia|].
    apply (in_range_between T p_value); [lia | exact Hv | lia | lia].
  - intros Hopp.
    rewrite operator_mul_unfold; [| exact Hn | cbv; split; discriminate].
    cbn [raw_value m_value].
    replace (p_value * raw_min) with (- p_value * raw_max)
      by (rewrite raw_min_value, raw_max_value; ring).
    rewrite round_half_away_multiple by reflexivity.
    apply static_cast_in_range; [lia | exact Hopp].
Qed.

Lemma operator_mul_full_scale_witness :
  operator_mul int16_t 12345 (Percent raw_max) = 12345 /\
  operator_mul int16_t 12345 (Percent raw_zero) = 0 /\
  (in_range int16_t (- 12345) ->
   operator_mul int16_t 12345 (Percent raw_min) = - 12345).
Proof.
  apply (operator_mul_full_scale int16_t 12345).
  - vm_compute. split; [reflexivity | discriminate].
  - vm_compute. split; discriminate.
Defined.

(** X14.  The product is odd in each operand: negating the value, or the
    percent, negates the result, for a value whose negation the type holds
    and a percent within [raw_min, raw_max]. *)
Theorem operator_mul_odd (T : int_type) (p_value : Z) (p_scale : percent) :
  0 < bits T <= 32 ->
  in_range T p_value -> in_range T (- p_value) ->
  raw_min <= raw_value p_scale <= raw_max ->
  operator_mul T (- p_value) p_scale = - operator_mul T p_value p_scale /\
  operator_mul T p_value (Percent (- raw_value p_scale))
    = - operator_mul T p_value p_scale.
Proof.
  intros Hb Hv Hopp Hr.
  rewrite raw_min_value, raw_max_value in Hr.
  pose proof (round_half_away_scaled p_value (raw_value p_scale) raw_max
                ltac:(reflexivity)
                ltac:(rewrite raw_max_value; lia)) as Habs.
  assert (Hin : forall x, Z.abs x <= Z.abs p_value -> in_range T x).
  { intros x Hx. revert Hv Hopp. unfold in_range. lia. }
  rewrite !operator_mul_unfold;
    try (apply (in_range_narrow T); assumption);
    try (apply in_range_int_t; cbn [raw_value m_value]; lia).
  cbn [raw_value m_value].
  replace (- p_value * raw_value p_scale)
    with (- (p_value * raw_value p_scale)) by ring.
  replace (p_value * - raw_value p_scale)
    with (- (p_value * raw_value p_scale)) by ring.
  rewrite round_half_away_opp_l.
  rewrite !static_cast_in_range; try lia; apply Hin; lia.
Qed.

Lemma operator_mul_odd_witness :
  operator_mul int32_t (Z.opp 1000) (Percent 715827882)
    = - operator_mul int32_t 1000 (Percent 715827882) /\
  operator_mul int32_t 1000 (Percent (- raw_value (Percent 715827882)))
    = - operator_mul int32_t 1000 (Percent 715827882).
Proof.
  apply (operator_mul_odd int32_t 1000 (Percent 715827882)).
  - vm_compute. split; [reflexivity | discriminate].
  - vm_compute. split; discriminate.
  - vm_compute. split; discriminate.
  - vm_compute. split; discriminate.
Defined.

(** X15.  With a percent that is not negative the product is monotonic in
    the value, and for a value that is not negative it is monotonic in the
    percent. *)
Theorem operator_mul_monotonic (T : int_type) (a b : Z) (p q : percent) :
  0 < bits T <= 32 ->
  in_range T a -> in_range T b ->
  0 <= raw_value p -> raw_value p <= raw_value q -> raw_value q <= raw_max ->
  a <= b ->
  operator_mul T a p <= operator_mul T b p /\
  (0 <= a -> operator_mul T a p <= operator_mul T a q).
Proof.
  intros Hb Ha Hbr Hp Hpq Hq Hab.
  rewrite !operator_mul_nonneg_percent by (try assumption; lia).
  split.
  - apply round_half_away_monotonic; [reflexivity | nia].
  - intros Ha0. apply round_half_away_monotonic; [reflexivity | nia].
Qed.

Lemma operator_mul_monotonic_witness :
  operator_mul uint16_t 100 (Percent 1073741823)
    <= operator_mul uint16_t 101 (Percent 1073741823) /\
  (0 <= 100 ->
   operator_mul uint16_t 100 (Percent 1073741823)
     <= operator_mul uint16_t 100 (Percent 1610612735)).
Proof.
  apply (operator_mul_monotonic uint16_t 100 101
           (Percent 1073741823) (Percent 1610612735)).
  - vm_compute. split; [reflexivity | discriminate].
  - vm_compute. split; discriminate.
  - vm_compute. split; discriminate.
  - vm_compute. discriminate.
  - vm_compute. discriminate.
  - vm_compute. discriminate.
  - vm_compute. discriminate.
Defined.

(** The percent of a ratio between 0 and 1. *)
Lemma from_ratio_unit_interval (p_progress p_maximum : Z) :
  0 <= p_progress <= p_maximum -> 0 < p_maximum ->
  p_maximum <= 2 ^ 32 - 1 ->
  let r := raw_value (from_ratio p_progress p_maximum) in
  r = p_progress * raw_max / p_maximum /\ 0 <= r <= raw_max.
Proof.
  intros Hp Hm Hmax r. subst r.
  rewrite from_ratio_raw by lia. cbn [raw_value m_value].
  rewrite Z.abs_eq, Z.quot_div_nonneg by (rewrite ?raw_max_value; lia).
  assert (Hq : 0 <= p_progress * raw_max / p_maximum <= raw_max).
  { rewrite raw_max_value. split; [apply Z.div_pos; lia|].
    apply Z.div_le_upper_bound; [lia | nia]. }
  unfold clamp. rewrite raw_min_value in *. rewrite raw_max_value in *.
  destruct (Z.ltb_spec (p_progress * 2147483647 / p_maximum) (-2147483647));
    [lia|].
  destruct (Z.ltb_spec 2147483647 (p_progress * 2147483647 / p_maximum));
    lia.
Qed.

(** X16.  Scaling by a ratio.  For a 32-bit signed value [v] and a ratio
    [progress / maximum] between 0 and 1, the product of [v] and
    [from_ratio progress maximum] differs from [v * progress / maximum] by
    less than 3/2. *)
Theorem operator_mul_from_ratio (T : int_type) (p_value p_progress p_maximum : Z) :
  0 < bits T <= 32 -> in_range T p_value ->
  - 2 ^ 31 <= p_value <= 2 ^ 31 ->
  0 <= p_progress <= p_maximum -> 0 < p_maximum <= 2 ^ 31 - 1 ->
  2 * Z.abs (operator_mul T p_value (from_ratio p_progress p_maximum)
             * p_maximum - p_value * p_progress)
    < 3 * p_maximum.
Proof.
  intros Hb Hv Hv32 Hp Hm.
  change (2 ^ 31) with 2147483648 in *.
  destruct (from_ratio_unit_interval p_progress p_maximum Hp
              ltac:(lia) ltac:(change (2 ^ 32) with 4294967296; lia))
    as [Hraw Hrange].
  set (raw := raw_value (from_ratio p_progress p_maximum)) in *.
  rewrite operator_mul_nonneg_percent by assumption. fold raw.
  pose proof (round_half_away_nearest (p_value * raw) raw_max
                ltac:(reflexivity)) as Hnear.
  set (q := round_half_away (p_value * raw) raw_max) in *.
  rewrite raw_max_value in *.
  pose proof (Z.mul_div_le (p_progress * 2147483647) p_maximum ltac:(lia))
    as Hlow.
  pose proof (Z.mul_succ_div_gt (p_progress * 2147483647) p_maximum
                ltac:(lia)) as Hhigh.
  rewrite <- Hraw in Hlow, Hhigh.
  set (e1 := q * 2147483647 - p_value * raw) in *.
  set (e2 := p_progress * 2147483647 - p_maximum * raw).
  assert (He2 : 0 <= e2 <= p_maximum - 1) by (subst e2; lia).
  assert (Hsplit : 2147483647 * (q * p_maximum - p_value * p_progress)
                   = p_maximum * e1 - p_value * e2)
    by (subst e1 e2; ring).
  assert (H1 : 2 * Z.abs (p_maximum * e1) <= p_maximum * 2147483647).
  { rewrite Z.abs_mul, (Z.abs_eq p_maximum) by lia. nia. }
  assert (H2 : Z.abs (p_value * e2) <= 2147483648 * (p_maximum - 1)).
  { rewrite Z.abs_mul, (Z.abs_eq e2) by lia.
    apply Z.mul_le_mono_nonneg; lia. }
  assert (H3 : 2 * Z.abs (2147483647 * (q * p_maximum - p_value * p_progress))
               < 3 * p_maximum * 2147483647).
  { rewrite Hsplit. lia. }
  rewrite Z.abs_mul in H3. change (Z.abs 2147483647) with 2147483647 in H3.
  lia.
Qed.

Lemma operator_mul_from_ratio_witness :
  2 * Z.abs (operator_mul int32_t 1000 (from_ratio 1 3) * 3 - 1000 * 1)
    < 3 * 3.
Proof.
  apply (operator_mul_from_ratio int32_t 1000 1 3).
  - vm_compute. split; [reflexivity | discriminate].
  - vm_compute. split; discriminate.
  - vm_compute. split; discriminate.
  - vm_compute. split; discriminate.
  - vm_compute. split; [reflexivity | discriminate].
Defined.

(** *** Reading the text of [to_string] back *)

Lemma digit_value_digit_char (d : Z) :
  0 <= d <= 9 -> digit_value (digit_char d) = d.
Proof.
  intros Hd. unfold digit_value, digit_char.
  rewrite nat_ascii_embedding by lia. lia.
Qed.

Lemma decimal_value_snoc (l : list ascii) (c : ascii) :
  decimal_value (l ++ [c]) = 10 * decimal_value l + digit_value c.
Proof. unfold decimal_value. rewrite fold_left_app. reflexivity. Qed.

Lemma decimal_value_padded (k : nat) (n : Z) :
  decimal_value (padded_decimal k n) = n mod 10 ^ Z.of_nat k.
Proof.
  revert n. induction k as [|k IH]; intros n.
  - cbn. rewrite Z.mod_1_r. reflexivity.
  - cbn [padded_decimal]. rewrite decimal_value_snoc, IH.
    pose proof (Z.mod_pos_bound n 10 ltac:(lia)).
    rewrite digit_value_digit_char by lia.
    rewrite Nat2Z.inj_succ, Z.pow_succ_r by lia.
    rewrite Z.rem_mul_r by lia. lia.
Qed.

Lemma billionths_rounds (p : percent) :
  raw_min <= raw_value p <= raw_max ->
  billionths p =
    round_half_away (fixed_percent_scalar * Z.abs (raw_value p)) raw_max.
Proof.
  intros Hr. rewrite raw_min_value, raw_max_value in Hr.
  unfold billionths, operator_mul_commuted.
  rewrite operator_mul_nonneg_percent;
    [reflexivity | cbn; lia | cbv; split; discriminate
    | cbn [raw_value m_value]; rewrite raw_max_value; lia].
Qed.

(** The nine digits after the decimal point, read as a number. *)
Lemma to_string_fraction (p : percent) :
  raw_min + 2 < raw_value p < raw_max - 2 ->
  decimal_value (take 9 (drop 3 (to_string p))) = billionths p.
Proof.
  intros Hr.
  rewrite to_string_inner by exact Hr.
  cbn [skipn]. rewrite drop_0.
  rewrite take_app_length' by (symmetry; apply padded_decimal_length).
  rewrite decimal_value_padded.
  change (Z.of_nat 9) with 9.
  apply Z.mod_small. apply billionths_range. exact Hr.
Qed.

(** X17.  Reading back.  For a percent that [to_string] does not print as
    1.000000000, the nine digits after the decimal point, read as a number
    [n] of billionths, are the magnitude of the percent rounded to the
    nearest billionth: [n / 10^9] lies less than half a billionth away
    from [|raw| / raw_max]. *)
Theorem to_string_reads_back (p : percent) :
  raw_min + 2 < raw_value p < raw_max - 2 ->
  let n := decimal_value (take 9 (drop 3 (to_string p))) in
  0 <= n < 10 ^ 9 /\
  2 * Z.abs (n * raw_max - 10 ^ 9 * Z.abs (raw_value p)) < raw_max.
Proof.
  intros Hr n. subst n.
  rewrite to_string_fraction by exact Hr.
  split; [apply billionths_range; exact Hr|].
  rewrite billionths_rounds
    by (rewrite raw_min_value, raw_max_value in *; lia).
  apply round_half_away_raw_max_strict.
Qed.

Lemma to_string_reads_back_witness :
  let n := decimal_value (take 9 (drop 3 (to_string (Percent 715827882)))) in
  0 <= n < 10 ^ 9 /\
  2 * Z.abs (n * raw_max - 10 ^ 9 * Z.abs (raw_value (Percent 715827882)))
    < raw_max.
Proof.
  apply (to_string_reads_back (Percent 715827882)).
  vm_compute. split; reflexivity.
Defined.

(** X18.  The text of a negated percent is the text of the percent with
    the other sign: everything after the first character is the same, and
    the first character is '+' for a positive raw value and '-' for a
    negative one. *)
Theorem to_string_negation (raw : Z) :
  raw_min <= raw <= raw_max -> 0 < raw ->
  to_string (Percent raw) = "+"%char :: drop 1 (to_string (Percent raw)) /\
  to_string (Percent (- raw)) = "-"%char :: drop 1 (to_string (Percent raw)).
Proof.
  rewrite raw_min_value, raw_max_value. intros Hr Hpos.
  destruct (Z.le_gt_cases (raw_max - 2) raw) as [Hsat | Hin].
  - rewrite (to_string_upper (Percent raw)) by exact Hsat.
    rewrite (to_string_lower (Percent (- raw)))
      by (cbn [raw_value m_value];
          rewrite raw_max_value in Hsat; rewrite raw_min_value; lia).
    split; reflexivity.
  - rewrite raw_max_value in Hin.
    rewrite (to_string_inner (Percent raw))
      by (cbn [raw_value m_value]; rewrite raw_min_value, raw_max_value; lia).
    rewrite (to_string_inner (Percent (- raw)))
      by (cbn [raw_value m_value]; rewrite raw_min_value, raw_max_value; lia).
    cbn [raw_value m_value skipn]. rewrite ?drop_0.
    replace (raw <? 0) with false by (symmetry; apply Z.ltb_ge; lia).
    replace (- raw <? 0) with true by (symmetry; apply Z.ltb_lt; lia).
    unfold billionths. cbn [raw_value m_value]. rewrite Z.abs_opp.
    split; reflexivity.
Qed.

Lemma to_string_negation_witness :
  to_string (Percent 268435456)
    = "+"%char :: drop 1 (to_string (Percent 268435456)) /\
  to_string (Percent (Z.opp 268435456))
    = "-"%char :: drop 1 (to_string (Percent 268435456)).
Proof.
  apply (to_string_negation 268435456).
  - vm_compute. split; discriminate.
  - reflexivity.
Defined.

(** X19.  The text keeps the order of the magnitudes: of two percents that
    are not negative and not printed as 1.000000000, the larger one never
    prints the smaller number after the decimal point. *)
Theorem to_string_monotonic (p q : percent) :
  0 <= raw_value p -> raw_value p <= raw_value q ->
  raw_value q < raw_max - 2 ->
  decimal_value (take 9 (drop 3 (to_string p)))
    <= decimal_value (take 9 (drop 3 (to_string q))).
Proof.
  intros Hp Hpq Hq.
  rewrite raw_max_value in Hq.
  rewrite !to_string_fraction
    by (rewrite raw_min_value, raw_max_value; lia).
  rewrite !billionths_rounds by (rewrite raw_min_value, raw_max_value; lia).
  apply round_half_away_monotonic; [reflexivity|].
  unfold fixed_percent_scalar. lia.
Qed.

Lemma to_string_monotonic_witness :
  decimal_value (take 9 (drop 3 (to_string (Percent 715827882))))
    <= decimal_value (take 9 (drop 3 (to_string (Percent 1431655764)))).
Proof.
  apply (to_string_monotonic (Percent 715827882) (Percent 1431655764)).
  - vm_compute. discriminate.
  - vm_compute. discriminate.
  - vm_compute. reflexivity.
Defined.

(** ** Floating-point conversions *)

(** *** Signs of the floating-point conversions *)

Lemma binary_round_aux_opp (prec emax : Z) (s : bool) (m e : Z) (l : location) :
  binary_round_aux prec emax (negb s) m e l
  = SFopp (binary_round_aux prec emax s m e l).
Proof.
  unfold binary_round_aux.
  destruct (shr_fexp prec emax m e l) as [mrs' e'].
  destruct (shr_fexp prec emax _ e' loc_Exact) as [mrs'' e''].
  destruct (shr_m mrs''); [reflexivity | | reflexivity].
  destruct (e'' <=? emax - prec); reflexivity.
Qed.

Lemma SFmul_opp_l (prec emax : Z) (x y : spec_float) :
  SFmul prec emax (SFopp x) y = SFopp (SFmul prec emax x y).
Proof.
  destruct x as [sx | sx | | sx mx ex], y as [sy | sy | | sy my ey];
    cbn [SFmul SFopp]; rewrite <- ?negb_xorb_l; try reflexivity.
  apply binary_round_aux_opp.
Qed.

Lemma SFdiv_opp_l (prec emax : Z) (x y : spec_float) :
  SFdiv prec emax (SFopp x) y = SFopp (SFdiv prec emax x y).
Proof.
  destruct x as [sx | sx | | sx mx ex], y as [sy | sy | | sy my ey];
    cbn [SFdiv SFopp]; rewrite <- ?negb_xorb_l; try reflexivity.
  destruct (SFdiv_core_binary prec emax (Zpos mx) ex (Zpos my) ey)
    as [[mz ez] lz].
  apply binary_round_aux_opp.
Qed.

Lemma float_of_int_opp (prec emax z : Z) :
  z <> 0 ->
  float_of_int prec emax (- z) = SFopp (float_of_int prec emax z).
Proof.
  intros Hz. unfold float_of_int, binary_normalize, binary_round.
  destruct z as [|p|p]; [contradiction | |];
    [change (- Zpos p) with (Zneg p) | change (- Zneg p) with (Zpos p)];
    cbv iota;
    destruct (shl_align p 0 (fexp prec emax (Zpos (digits2_pos p) + 0)))
      as [mz ez].
  - apply (binary_round_aux_opp prec emax false).
  - apply (binary_round_aux_opp prec emax true).
Qed.

Lemma truncate_opp (prec emax : Z) (x : spec_float) :
  truncate (SFopp x) =
    match truncate x with Some t => Some (- t) | None => None end.
Proof.
  destruct x as [s | s | | s m e]; cbn [truncate SFopp]; try reflexivity.
  destruct s; cbn [negb]; f_equal; lia.
Qed.

Lemma SFcompare_opp (x y : spec_float) :
  SFcompare (SFopp x) (SFopp y) = SFcompare y x.
Proof.
  destruct x as [s1 | s1 | | s1 m1 e1], y as [s2 | s2 | | s2 m2 e2];
    try destruct s1; try destruct s2; try reflexivity;
    cbn [SFcompare SFopp negb]; f_equal;
    rewrite (compare_cont_Eq m1 m2), (compare_cont_Eq m2 m1),
      (Z.compare_antisym e1 e2), (Pos.compare_antisym m1 m2);
    destruct (e1 ?= e2); cbn [CompOpp]; try reflexivity;
    destruct (m1 ?= m2)%positive; reflexivity.
Qed.

Lemma SFltb_opp (x y : spec_float) :
  SFltb (SFopp x) (SFopp y) = SFltb y x.
Proof. unfold SFltb. rewrite SFcompare_opp. reflexivity. Qed.

Lemma unit_interval_exclusive (r : spec_float) :
  SFltb r (SFopp double_one) && SFltb double_one r = false.
Proof.
  destruct r as [[] | [] | | [] m e]; try reflexivity.
  apply andb_false_r.
Qed.

Lemma float_clamp_opp (r : spec_float) :
  float_clamp (SFopp r) (SFopp double_one) double_one
  = SFopp (float_clamp r (SFopp double_one) double_one).
Proof.
  unfold float_clamp.
  rewrite (SFltb_opp r double_one).
  replace (SFltb double_one (SFopp r)) with (SFltb r (SFopp double_one))
    by (symmetry; apply (SFltb_opp (SFopp double_one) r)).
  pose proof (unit_interval_exclusive r) as Hex.
  destruct (SFltb r (SFopp double_one)), (SFltb double_one r);
    try reflexivity.
  discriminate Hex.
Qed.

(** X20.  [to<T>()] is odd, in every floating-point format: the ratio of a
    negated percent is the negated ratio. *)
Theorem to_float_odd (prec emax : Z) (raw : Z) :
  raw_min <= raw <= raw_max -> raw <> 0 ->
  to_float prec emax (Percent (- raw))
  = SFopp (to_float prec emax (Percent raw)).
Proof.
  intros _ Hnz. unfold to_float. cbn [raw_value m_value].
  rewrite float_of_int_opp by exact Hnz.
  apply SFdiv_opp_l.
Qed.

Lemma to_float_odd_witness :
  to_float double_prec double_emax (Percent (Z.opp 715827882))
  = SFopp (to_float double_prec double_emax (Percent 715827882)).
Proof.
  apply (to_float_odd double_prec double_emax 715827882).
  - vm_compute. split; discriminate.
  - discriminate.
Defined.

(** X21.  Assignment from a [double] is odd: the negated ratio stores the
    negated raw value, and a NaN, negated or not, stores nothing. *)
Theorem operator_assign_double_odd (r : spec_float) :
  valid_binary double_prec double_emax r = true ->
  operator_assign double_prec double_emax (SFopp r) =
    match operator_assign double_prec double_emax r with
    | Some p => Some (Percent (- raw_value p))
    | None => None
    end.
Proof.
  intros Hvalid.
  destruct (is_nan r) eqn:Hnan.
  - destruct r; try discriminate Hnan. reflexivity.
  - destruct (operator_assign_double_range r Hvalid Hnan) as (p & Hp & Hr).
    rewrite Hp.
    rewrite operator_assign_double in *.
    rewrite float_clamp_opp, SFmul_opp_l.
    unfold float_to_int in *.
    rewrite (truncate_opp double_prec double_emax).
    destruct (truncate _) as [t|]; [|discriminate Hp].
    destruct (in_rangeb int_t t) eqn:Ht; [|discriminate Hp].
    injection Hp as <-. cbn [raw_value m_value] in *.
    rewrite in_rangeb_int_t; [reflexivity|].
    rewrite raw_min_value, raw_max_value in Hr.
    change (2 ^ 31) with 2147483648. lia.
Qed.

Lemma operator_assign_double_odd_witness :
  operator_assign double_prec double_emax
    (SFopp (double_literal 1 3)) =
    match operator_assign double_prec double_emax (double_literal 1 3) with
    | Some p => Some (Percent (- raw_value p))
    | None => None
    end.
Proof.
  apply (operator_assign_double_odd (double_literal 1 3)).
  vm_compute. reflexivity.
Defined.

(** *** Single precision inside the unit interval *)

Lemma digits2_pos_ge (p : positive) :
  2 ^ (Zpos (digits2_pos p) - 1) <= Zpos p.
Proof.
  induction p as [p IH | p IH |]; cbn [digits2_pos].
  - rewrite Pos2Z.inj_succ.
    replace (Z.succ (Zpos (digits2_pos p)) - 1)
      with (Z.succ (Zpos (digits2_pos p) - 1)) by lia.
    rewrite Z.pow_succ_r by lia. lia.
  - rewrite Pos2Z.inj_succ.
    replace (Z.succ (Zpos (digits2_pos p)) - 1)
      with (Z.succ (Zpos (digits2_pos p) - 1)) by lia.
    rewrite Z.pow_succ_r by lia. lia.
  - reflexivity.
Qed.

Lemma Zdigits2_mul_pow2 (k n : Z) :
  0 < k -> 0 <= n -> Zdigits2 (k * 2 ^ n) = Zdigits2 k + n.
Proof.
  intros Hk Hn.
  pose proof (pow2_pos n Hn) as Hpn.
  destruct k as [|p|p]; try lia.
  destruct (Zpos p * 2 ^ n) as [|q|q] eqn:Eq; try lia.
  cbn [Zdigits2].
  pose proof (digits2_pos_lt p) as Hlt.
  pose proof (digits2_pos_ge p) as Hge.
  pose proof (digits2_pos_lt q) as Hltq.
  pose proof (digits2_pos_ge q) as Hgeq.
  set (D := Zpos (digits2_pos p)) in *.
  set (Dq := Zpos (digits2_pos q)) in *.
  assert (HD : 1 <= D) by (subst D; lia).
  assert (HDq : 1 <= Dq) by (subst Dq; lia).
  assert (Hup : Zpos q < 2 ^ (D + n)).
  { rewrite <- Eq, pow2_split by lia. nia. }
  assert (Hlow : 2 ^ (D - 1 + n) <= Zpos q).
  { rewrite <- Eq, pow2_split by lia. nia. }
  pose proof (digits2_pos_le q (D + n) Hup) as Hle. fold Dq in Hle.
  destruct (Z.lt_ge_cases Dq (D + n)) as [Hsmall | Hbig]; [|lia].
  assert (2 ^ Dq <= 2 ^ (D - 1 + n)) by (apply Z.pow_le_mono_r; lia).
  lia.
Qed.

Lemma shr_1_even (k : Z) :
  0 <= k ->
  shr_1 (Build_shr_record (2 * k) false false)
  = Build_shr_record k false false.
Proof.
  intros Hk. destruct k as [|p|p]; [reflexivity | reflexivity | lia].
Qed.

Lemma iter_shr_1_exact (p : positive) :
  forall k : Z,
    0 <= k ->
    SpecFloat.iter_pos shr_1 p (Build_shr_record (k * 2 ^ Zpos p) false false)
    = Build_shr_record k false false.
Proof.
  induction p as [p IH | p IH |]; intros k Hk; cbn [SpecFloat.iter_pos].
  - replace (k * 2 ^ Zpos p~1) with (2 * ((k * 2 ^ Zpos p) * 2 ^ Zpos p)).
    + pose proof (pow2_pos (Zpos p) ltac:(lia)).
      rewrite shr_1_even by nia.
      rewrite IH by nia. apply IH. exact Hk.
    + replace (Zpos p~1) with (1 + Zpos p + Zpos p) by lia.
      rewrite !Z.pow_add_r by lia. change (2 ^ 1) with 2. ring.
  - replace (k * 2 ^ Zpos p~0) with ((k * 2 ^ Zpos p) * 2 ^ Zpos p).
    + pose proof (pow2_pos (Zpos p) ltac:(lia)).
      rewrite IH by nia. apply IH. exact Hk.
    + replace (Zpos p~0) with (Zpos p + Zpos p) by lia.
      rewrite !Z.pow_add_r by lia. ring.
  - change (2 ^ 1) with 2. rewrite Z.mul_comm. apply shr_1_even. exact Hk.
Qed.

(** A mantissa whose low bits are zero is shifted without rounding. *)
Lemma binary_round_aux_exact (prec emax : Z) (s : bool) (k : positive)
    (e n : Z) :
  0 <= n ->
  fexp prec emax (Zpos (digits2_pos k) + n + e) = e + n ->
  e + n <= emax - prec ->
  binary_round_aux prec emax s (Zpos k * 2 ^ n) e loc_Exact
  = S754_finite s k (e + n).
Proof.
  intros Hn Hfexp Hmax.
  unfold binary_round_aux, shr_fexp.
  rewrite Zdigits2_mul_pow2 by lia. cbn [Zdigits2].
  rewrite Hfexp. replace (e + n - e) with n by lia.
  cbn [shr_record_of_loc].
  assert (Hshr : shr (Build_shr_record (Zpos k * 2 ^ n) false false) e n
                 = (Build_shr_record (Zpos k) false false, e + n)).
  { unfold shr. destruct n as [|p|p]; [|  |lia].
    - rewrite Z.mul_1_r, Z.add_0_r. reflexivity.
    - rewrite iter_shr_1_exact by lia. reflexivity. }
  rewrite Hshr. cbn [shr_m loc_of_shr_record round_nearest_even Zdigits2].
  replace (Zpos (digits2_pos k) + (e + n)) with (Zpos (digits2_pos k) + n + e)
    by lia.
  rewrite Hfexp, Z.sub_diag. cbn [shr shr_record_of_loc shr_m].
  replace (e + n <=? emax - prec) with true
    by (symmetry; apply Z.leb_le; exact Hmax).
  reflexivity.
Qed.

Lemma operator_assign_float (r : spec_float) :
  operator_assign float_prec float_emax r =
    match float_to_int int_t
            (SFmul float_prec float_emax
               (float_clamp r (SFopp float_one) float_one) float_raw_max)
    with
    | Some m_value => Some (Percent m_value)
    | None => None
    end.
Proof. reflexivity. Qed.

Lemma fexp_float (x : Z) :
  fexp float_prec float_emax x = Z.max (x - 24) (-149).
Proof. reflexivity. Qed.

(** A [float] strictly between -1 and 1: its exponent, its mantissa, and
    what [std::clamp] does with it. *)
Lemma float_unit_interval (s : bool) (m : positive) (e : Z) :
  bounded float_prec float_emax m e = true ->
  SFltb (SFopp float_one) (S754_finite s m e) = true ->
  SFltb (S754_finite s m e) float_one = true ->
  -149 <= e <= -24 /\ Zpos (digits2_pos m) <= 24 /\
  float_clamp (S754_finite s m e) (SFopp float_one) float_one
  = S754_finite s m e.
Proof.
  unfold bounded, canonical_mantissa.
  rewrite andb_true_iff, Z.eqb_eq, fexp_float.
  intros [Hcanon _].
  assert (Hsmall : Zpos m < 8388608 -> e <> -23).
  { intros Hm He. subst e.
    pose proof (digits2_pos_le m 23 Hm).
    lia. }
  intros Hlo Hhi.
  assert (He : e < -23).
  { unfold SFltb, SFcompare, SFopp, float_one in Hlo, Hhi.
    cbn [negb] in Hlo.
    destruct s.
    - clear Hhi. revert Hlo.
      rewrite (compare_cont_Eq 8388608 m).
      destruct (Z.compare_spec (-23) e) as [<- | Hlt | Hgt]; intros Hlo.
      + exfalso. apply Hsmall; [|reflexivity].
        assert (Hc : (8388608 ?= m)%positive = Gt)
          by (destruct (8388608 ?= m)%positive;
              [discriminate Hlo | discriminate Hlo | reflexivity]).
        apply Pos2Z.pos_lt_pos, Pos.gt_lt. exact Hc.
      + discriminate Hlo.
      + lia.
    - clear Hlo. revert Hhi.
      rewrite (compare_cont_Eq m 8388608).
      destruct (Z.compare_spec e (-23)) as [-> | Hlt | Hgt]; intros Hhi.
      + exfalso. apply Hsmall; [|reflexivity].
        assert (Hc : (m ?= 8388608)%positive = Lt)
          by (destruct (m ?= 8388608)%positive;
              [discriminate Hhi | reflexivity | discriminate Hhi]).
        apply Pos2Z.pos_lt_pos. exact Hc.
      + exact Hlt.
      + discriminate Hhi. }
  clear Hlo Hhi Hsmall.
  split; [lia|]. split; [lia|].
  unfold float_clamp, SFltb, SFcompare, SFopp, float_one. cbn [negb].
  destruct s.
  - replace (e ?= -23) with Lt by (symmetry; apply Z.compare_lt_iff; lia).
    reflexivity.
  - replace (-23 ?= e) with Gt by (symmetry; apply Z.compare_gt_iff; lia).
    reflexivity.
Qed.

Lemma float_product_exact (s : bool) (m : positive) (e : Z) :
  -149 <= e <= -24 -> Zpos (digits2_pos m) <= 24 ->
  exists t,
    float_to_int int_t
      (SFmul float_prec float_emax (S754_finite s m e) float_raw_max)
      = Some t /\
    truncate (S754_finite s m (e + 31)) = Some t /\
    Z.abs t <= 2 ^ 31 - 128.
Proof.
  intros He HD.
  set (D := Zpos (digits2_pos m)) in *.
  assert (HD1 : 1 <= D) by (subst D; lia).
  pose proof (digits2_pos_lt m) as Hm. fold D in Hm.
  assert (Hm24 : Zpos m < 2 ^ 24).
  { apply Z.lt_le_trans with (1 := Hm). apply Z.pow_le_mono_r; lia. }
  pose proof (pow2_pos (24 - D) ltac:(lia)) as Hpa.
  set (k := Z.to_pos (Zpos m * 2 ^ (24 - D))).
  assert (Hk : Zpos k = Zpos m * 2 ^ (24 - D)) by (subst k; apply Z2Pos.id; lia).
  assert (Hdk : Zpos (digits2_pos k) = 24).
  { change (Zpos (digits2_pos k)) with (Zdigits2 (Zpos k)).
    rewrite Hk, Zdigits2_mul_pow2 by lia. cbn [Zdigits2]. fold D. lia. }
  assert (Hprod : Zpos (m * 8388608) = Zpos k * 2 ^ (D - 1)).
  { rewrite Hk, <- Z.mul_assoc, <- pow2_split by lia.
    replace (24 - D + (D - 1)) with 23 by lia. reflexivity. }
  unfold SFmul, float_raw_max. rewrite xorb_false_r, Hprod.
  rewrite (binary_round_aux_exact float_prec float_emax s k (e + 8) (D - 1));
    [| lia
     | rewrite Hdk, fexp_float; lia
     | unfold float_emax, float_prec; lia ].
  unfold float_to_int. cbn [truncate].
  set (e1 := e + 8 + (D - 1)).
  assert (Hmag : (if 0 <=? e1 then Zpos k * 2 ^ e1 else Zpos k / 2 ^ (- e1))
                 = (if 0 <=? e + 31 then Zpos m * 2 ^ (e + 31)
                    else Zpos m / 2 ^ (- (e + 31)))).
  { rewrite Hk. subst e1.
    destruct (Z.leb_spec 0 (e + 8 + (D - 1))) as [H1 | H1].
    - replace (0 <=? e + 31) with true by (symmetry; apply Z.leb_le; lia).
      rewrite <- Z.mul_assoc, <- pow2_split by lia. f_equal. f_equal. lia.
    - destruct (Z.leb_spec 0 (e + 31)) as [H2 | H2].
      + replace (24 - D) with (e + 31 + - (e + 8 + (D - 1))) by lia.
        rewrite pow2_split, Z.mul_assoc by lia.
        apply Z.div_mul. pose proof (pow2_pos (- (e + 8 + (D - 1))) ltac:(lia)).
        lia.
      + replace (- (e + 8 + (D - 1))) with (- (e + 31) + (24 - D)) by lia.
        rewrite pow2_split by lia.
        pose proof (pow2_pos (- (e + 31)) ltac:(lia)).
        apply Z.div_mul_cancel_r; lia. }
  rewrite Hmag.
  set (mag := if 0 <=? e + 31 then Zpos m * 2 ^ (e + 31)
              else Zpos m / 2 ^ (- (e + 31))).
  assert (Hbound : 0 <= mag <= 2 ^ 31 - 128).
  { subst mag. destruct (Z.leb_spec 0 (e + 31)) as [H2 | H2].
    - assert (2 ^ (e + 31) <= 2 ^ 7) by (apply Z.pow_le_mono_r; lia).
      pose proof (pow2_pos (e + 31) H2).
      change (2 ^ 31) with 2147483648. change (2 ^ 7) with 128 in *.
      change (2 ^ 24) with 16777216 in *. nia.
    - pose proof (pow2_pos (- (e + 31)) ltac:(lia)).
      split; [apply Z.div_pos; lia|].
      apply Z.le_trans with (Zpos m).
      + apply Z.div_le_upper_bound; [lia | nia].
      + change (2 ^ 31) with 2147483648. change (2 ^ 24) with 16777216 in *.
        lia. }
  exists (if s then - mag else mag).
  rewrite in_rangeb_int_t by (destruct s; lia).
  repeat split; destruct s; lia.
Qed.

(** X22.  Single precision inside the unit interval.  For every [float]
    strictly between -1 and 1 the assignment is defined and exact: it
    stores the integral part of the ratio times [2 ^ 31], the value that
    [raw_max()] has as a [float], which is at most [2 ^ 31 - 128] in
    magnitude. *)
Theorem operator_assign_float_inside (r : spec_float) :
  valid_binary float_prec float_emax r = true ->
  SFltb (SFopp float_one) r = true -> SFltb r float_one = true ->
  exists t,
    operator_assign float_prec float_emax r = Some (Percent t) /\
    scaled_integral_part r 31 = Some t /\
    Z.abs t <= 2 ^ 31 - 128.
Proof.
  intros Hvalid Hlo Hhi.
  destruct r as [s | s | | s m e].
  - exists 0. destruct s; repeat split; reflexivity || discriminate.
  - destruct s; discriminate.
  - discriminate.
  - cbn [valid_binary] in Hvalid.
    destruct (float_unit_interval s m e Hvalid Hlo Hhi) as (He & HD & Hclamp).
    destruct (float_product_exact s m e He HD) as (t & Ht & Hs & Hb).
    exists t. rewrite operator_assign_float, Hclamp, Ht.
    repeat split; assumption.
Qed.

Lemma operator_assign_float_inside_witness :
  exists t,
    operator_assign float_prec float_emax (S754_finite false 8388608 (-24))
      = Some (Percent t) /\
    scaled_integral_part (S754_finite false 8388608 (-24)) 31 = Some t /\
    Z.abs t <= 2 ^ 31 - 128.
Proof.
  apply (operator_assign_float_inside (S754_finite false 8388608 (-24)));
    vm_compute; reflexivity.
Defined.

(** *** Saturated doubles as text *)

(** X23.  A percent constructed from a [double] above 1 prints as
    +1.000000000, and one constructed from a [double] below -1 as
    -1.000000000. *)
Theorem percent_of_double_saturated_text (r : spec_float) :
  SFltb double_one r = true \/ SFltb r (SFopp double_one) = true ->
  exists p,
    percent_of_float double_prec double_emax r = Some p /\
    visible (to_string p) =
      (if SFltb double_one r then "+1.000000000" else "-1.000000000")%string.
Proof.
  destruct (operator_assign_double_saturates r) as [Hlo Hhi].
  unfold percent_of_float.
  intros [H | H].
  - exists (Percent raw_max). rewrite (Hhi H), H.
    split; [reflexivity|].
    rewrite to_string_upper by (cbn [raw_value m_value]; lia).
    reflexivity.
  - exists (Percent raw_min). rewrite (Hlo H).
    assert (Hnot : SFltb double_one r = false).
    { pose proof (unit_interval_exclusive r) as Hex.
      rewrite H in Hex. exact Hex. }
    rewrite Hnot. split; [reflexivity|].
    rewrite to_string_lower by (cbn [raw_value m_value]; lia).
    reflexivity.
Qed.

Lemma percent_of_double_saturated_text_witness :
  exists p,
    percent_of_float double_prec double_emax
      (float_of_int double_prec double_emax 3) = Some p /\
    visible (to_string p) =
      (if SFltb double_one (float_of_int double_prec double_emax 3)
       then "+1.000000000" else "-1.000000000")%string.
Proof.
  apply (percent_of_double_saturated_text
           (float_of_int double_prec double_emax 3)).
  left. vm_compute. reflexivity.
Defined.

(** *** The range of [to<double>()] *)

(** Rounding a value below 1 gives a value that is at most 1. *)
Lemma binary_round_aux_unit (s : bool) (q e : Z) (l : location) :
  0 <= q -> e < 0 -> q < 2 ^ (- e) ->
  within_unit (binary_round_aux double_prec double_emax s q e l) = true.
Proof.
  intros Hq He Hlt. unfold binary_round_aux.
  destruct (shr_fexp double_prec double_emax q e l) as [mrs1 e1] eqn:H1.
  destruct (shr_fexp_spec _ _ q _ _ _ _ Hq H1) as (Hm1 & He1 & Hv1).
  pose proof (round_nearest_even_bounds (shr_m mrs1) (loc_of_shr_record mrs1))
    as Hround.
  set (m1 := shr_m mrs1) in *.
  set (m1r := round_nearest_even m1 (loc_of_shr_record mrs1)) in *.
  destruct (shr_fexp double_prec double_emax m1r e1 loc_Exact)
    as [mrs2 e2] eqn:H2.
  assert (Hm1r : 0 <= m1r) by lia.
  destruct (shr_fexp_spec _ _ m1r _ _ _ _ Hm1r H2) as (Hm2 & He2 & Hv2).
  set (m2 := shr_m mrs2) in *.
  rewrite fexp_double in He1, He2.
  pose proof (Zdigits2_le q (- e) ltac:(lia) ltac:(lia)) as A1.
  assert (A2 : e <= e1 < 0) by lia.
  pose proof (pow2_pos (- e1) ltac:(lia)) as Hpe1.
  pose proof (pow2_pos (e1 - e) ltac:(lia)) as Hpd1.
  assert (A3 : m1 < 2 ^ (- e1)).
  { apply (Z.mul_lt_mono_pos_r (2 ^ (e1 - e))); [lia|].
    rewrite <- pow2_split by lia.
    replace (- e1 + (e1 - e)) with (- e) by lia. lia. }
  assert (A4 : m1r < 2 ^ (1 - e1)).
  { replace (1 - e1) with (1 + - e1) by lia.
    rewrite pow2_split by lia. change (2 ^ 1) with 2. lia. }
  pose proof (Zdigits2_le m1r (1 - e1) ltac:(lia) ltac:(lia)) as A5.
  assert (A6 : e1 <= e2 < 0) by lia.
  pose proof (pow2_pos (- e2) ltac:(lia)) as Hpe2.
  pose proof (pow2_pos (e2 - e1) ltac:(lia)) as Hpd2.
  assert (A7 : m2 <= 2 ^ (- e2)).
  { apply (Z.mul_le_mono_pos_r _ _ (2 ^ (e2 - e1))); [lia|].
    rewrite <- pow2_split by lia.
    replace (- e2 + (e2 - e1)) with (- e1) by lia. lia. }
  destruct m2 as [|m|m] eqn:Em2; [reflexivity | | lia].
  replace (e2 <=? double_emax - double_prec) with true
    by (symmetry; apply Z.leb_le; unfold double_emax, double_prec; lia).
  cbn [within_unit]. apply andb_true_iff.
  split; apply Z.leb_le; lia.
Qed.

Lemma iter_xO_pow2 (p d : positive) :
  Zpos (Pos.iter xO p d) = Zpos p * 2 ^ Zpos d.
Proof.
  induction d as [|d IH] using Pos.peano_ind.
  - cbn [Pos.iter]. lia.
  - rewrite Pos.iter_succ, Pos2Z.inj_xO, IH, Pos2Z.inj_succ, Z.pow_succ_r
      by lia.
    ring.
Qed.

(** An integer of at most 53 bits is a [double]: its mantissa is the
    integer shifted up to 53 bits. *)
Lemma float_of_int_double (z : Z) :
  z <> 0 -> Z.abs z < 2 ^ 53 ->
  exists (m : positive) (k : Z),
    float_of_int double_prec double_emax z = S754_finite (z <? 0) m (- k) /\
    0 <= k <= 52 /\
    Zpos m = Z.abs z * 2 ^ k /\
    Zpos (digits2_pos m) = 53.
Proof.
  intros Hz Hlt.
  assert (Hgen : forall (s : bool) (p : positive),
            Zpos p < 2 ^ 53 ->
            exists (m : positive) (k : Z),
              binary_round double_prec double_emax s p 0 = S754_finite s m (- k) /\
              0 <= k <= 52 /\
              Zpos m = Zpos p * 2 ^ k /\
              Zpos (digits2_pos m) = 53).
  { intros s p Hp.
    pose proof (digits2_pos_le p 53 Hp) as HD.
    set (D := Zpos (digits2_pos p)) in *.
    assert (HD1 : 1 <= D) by (subst D; lia).
    unfold binary_round. rewrite fexp_double. fold D.
    replace (Z.max (D + 0 - 53) (-1074)) with (D - 53) by lia.
    assert (Halign : exists m,
              shl_align p 0 (D - 53) = (m, D - 53) /\
              Zpos m = Zpos p * 2 ^ (53 - D)).
    { unfold shl_align.
      destruct (D - 53 - 0) as [|d|d] eqn:Ed; [| lia |].
      - exists p. replace (D - 53) with 0 by lia.
        replace (53 - D) with 0 by lia. split; [reflexivity | lia].
      - exists (Pos.iter xO p d). split; [reflexivity|].
        rewrite iter_xO_pow2. do 2 f_equal. lia. }
    destruct Halign as (m & -> & Hm).
    assert (Hdm : Zpos (digits2_pos m) = 53).
    { change (Zpos (digits2_pos m)) with (Zdigits2 (Zpos m)).
      rewrite Hm, Zdigits2_mul_pow2 by lia. cbn [Zdigits2]. fold D. lia. }
    exists m, (53 - D).
    replace (- (53 - D)) with (D - 53) by lia.
    split; [|split; [lia | split; assumption]].
    rewrite <- (Z.mul_1_r (Zpos m)). change 1 with (2 ^ 0) at 1.
    rewrite (binary_round_aux_exact double_prec double_emax s m (D - 53) 0);
      [ f_equal; lia
      | lia
      | rewrite Hdm, fexp_double; lia
      | unfold double_emax, double_prec; lia ]. }
  unfold float_of_int, binary_normalize.
  destruct z as [|p|p]; [contradiction | |].
  - destruct (Hgen false p Hlt) as (m & k & H). exists m, k. exact H.
  - destruct (Hgen true p Hlt) as (m & k & H). exists m, k. exact H.
Qed.

Lemma to_double_inside (raw : Z) :
  raw <> 0 -> Z.abs raw < raw_max ->
  within_unit (to_float double_prec double_emax (Percent raw)) = true.
Proof.
  intros Hnz Hlt. rewrite raw_max_value in Hlt.
  destruct (float_of_int_double raw Hnz
              ltac:(change (2 ^ 53) with 9007199254740992; lia))
    as (m & k & Hx & Hk & Hm & Hdm).
  unfold to_float. cbn [raw_value m_value]. rewrite Hx.
  change (float_of_int double_prec double_emax raw_max) with double_raw_max.
  unfold double_raw_max, SFdiv, SFdiv_core_binary.
  cbn [Zdigits2]. rewrite Hdm.
  change (Zpos (digits2_pos 9007199250546688)) with 53.
  rewrite fexp_double.
  replace (Z.min (Z.max (53 + - k - (53 + -22) - 53) (-1074)) (- k - -22))
    with (- 31 - k) by lia.
  replace (- k - -22 - (- 31 - k)) with 53 by lia.
  cbv iota.
  rewrite Z.shiftl_mul_pow2 by lia.
  pose proof (pow2_pos k ltac:(lia)) as Hpk.
  assert (Hq : 0 <= Zpos m * 2 ^ 53 / 9007199250546688 < 2 ^ (31 + k)).
  { split; [apply Z.div_pos; lia|].
    apply Z.div_lt_upper_bound; [lia|].
    rewrite Hm, pow2_split by lia.
    change (2 ^ 53) with 9007199254740992.
    change (2 ^ 31) with 2147483648. nia. }
  unfold Z.div in Hq.
  destruct (Z.div_eucl (Zpos m * 2 ^ 53) 9007199250546688) as [q r].
  apply binary_round_aux_unit; [lia | lia |].
  replace (- (- 31 - k)) with (31 + k) by lia. lia.
Qed.

(** X24.  [to<double>()] of a percent within [raw_min, raw_max] lies
    within [-1, 1]; the value [INT32_MIN], which [convert] can store, gives
    a double below -1. *)
Theorem to_double_within_unit (p : percent) :
  raw_min <= raw_value p <= raw_max ->
  within_unit (to_float double_prec double_emax p) = true /\
  within_unit (to_float double_prec double_emax (Percent (int_min int_t)))
    = false.
Proof.
  rewrite raw_min_value, raw_max_value. intros Hr.
  split; [|vm_compute; reflexivity].
  destruct p as [raw]. cbn [raw_value m_value] in Hr.
  destruct (Z.eq_dec raw 0) as [-> | Hnz]; [reflexivity|].
  destruct (Z.eq_dec raw 2147483647) as [-> | Hmax];
    [vm_compute; reflexivity|].
  destruct (Z.eq_dec raw (-2147483647)) as [-> | Hmin];
    [vm_compute; reflexivity|].
  apply to_double_inside; [exact Hnz | rewrite raw_max_value; lia].
Qed.

Lemma to_double_within_unit_witness :
  within_unit (to_float double_prec double_emax (Percent 715827882)) = true /\
  within_unit (to_float double_prec double_emax (Percent (int_min int_t)))
    = false.
Proof.
  apply (to_double_within_unit (Percent 715827882)).
  vm_compute. split; discriminate.
Defined.
